(** * Text layout of satori: line breaking, measurement and painting

    A shallow embedding of [src/text.ts] ([buildTextNodes]).  The generator
    has three phases: the preprocessing and min-width scan, the measurement
    callback registered on the Yoga node (called any number of times), and
    the painter that runs after the layout is committed.

    Modelling conventions.
    - JavaScript numbers that the code computes from the font engine are
      rationals ([Q]); rounding of doubles is not modelled.  Where the code
      can read [undefined] from an array and feed it to arithmetic (the
      painter), numbers are [num := option Q] with [None] for [NaN].
    - Strings are Rocq strings; a character is one byte of the string.
    - The font engine, the grapheme segmenter, the list [wordSeparators] of
      [utils.ts] and the style of the parent are parameters.
    - The mutable variables shared by the callback and the painter
      ([words], [lineWidths], [baselines], [lineSegmentNumber],
      [wordPositionInLayout], [wordWidthCache]) form an explicit [Store]. *)

From Stdlib Require Import QArith ZArith List String Ascii Bool Lia Lqa Sorted.
From stdpp Require Import base option list strings gmap.

Local Open Scope Q_scope.
Local Open Scope string_scope.
Local Open Scope list_scope.

(** ** JavaScript values and numbers *)

(** The result of a property read that may be absent. *)
Inductive JsVal : Type :=
  | JsUndefined
  | JsStr (s : string).

(** [s[0]] on a string: the first character, [undefined] on the empty string. *)
Definition str_index0 (s : string) : JsVal :=
  match s with
  | EmptyString => JsUndefined
  | String c _ => JsStr (String c EmptyString)
  end.

(** [arr.includes(v)] on an array of strings (SameValueZero): [undefined]
    is never a member. *)
Definition includes_js (arr : list string) (v : JsVal) : bool :=
  match v with
  | JsUndefined => false
  | JsStr s => existsb (String.eqb s) arr
  end.

(** [ToString] of the argument of [String.prototype.indexOf]. *)
Definition to_string_js (v : JsVal) : string :=
  match v with
  | JsUndefined => "undefined"
  | JsStr s => s
  end.

(** [str.indexOf(v)]: position of the first occurrence, [-1] if none. *)
Definition indexOf_js (str : string) (v : JsVal) : Z :=
  match String.index 0 (to_string_js v) str with
  | Some n => Z.of_nat n
  | None => (-1)%Z
  end.

(** Truthiness of a finite number: everything but zero. *)
Definition truthy (q : Q) : bool := negb (Qeq_bool q 0).

(** [a > b] on finite numbers. *)
Definition Qgtb (a b : Q) : bool := negb (Qle_bool a b).

(** [Math.max(a, b)] on finite numbers. *)
Definition Math_max (a b : Q) : Q := if Qle_bool a b then b else a.

(** [Math.min(a, b)] on finite numbers. *)
Definition Math_min (a b : Q) : Q := if Qle_bool a b then a else b.

(** Numbers that may be [NaN]: [None] is [NaN] (and [undefined] once it is
    used in arithmetic or a comparison). *)
Definition num : Type := option Q.

Definition num_add (a b : num) : num :=
  match a, b with Some x, Some y => Some (x + y) | _, _ => None end.
Definition num_sub (a b : num) : num :=
  match a, b with Some x, Some y => Some (x - y) | _, _ => None end.
Definition num_mul (a b : num) : num :=
  match a, b with Some x, Some y => Some (x * y) | _, _ => None end.
(** Division; the only divisors in the code are [2] and [segments - 1]
    under the guard [segments > 1], so a zero divisor never occurs and is
    mapped to [NaN] here. *)
Definition num_div (a b : num) : num :=
  match a, b with
  | Some x, Some y => if Qeq_bool y 0 then None else Some (x / y)
  | _, _ => None
  end.
(** [a > b]: false as soon as one side is [NaN]. *)
Definition num_gt (a b : num) : bool :=
  match a, b with Some x, Some y => Qgtb x y | _, _ => false end.
(** [isNaN(a)]. *)
Definition isNaN (a : num) : bool :=
  match a with None => true | Some _ => false end.

(** ** Inline text *)

(** [Partial<InlineTextStyle>]: the colour may be absent. *)
Record InlineTextStyle : Type := { color : option string }.

(** [class InlineText]: it has the two properties [content] and [style]
    and nothing else. *)
Record InlineText : Type := {
  content : string;
  style : option InlineTextStyle
}.

(** [word[0]] where [word] is an [InlineText]: the object has no property
    ["0"], so the read gives [undefined]. *)
Definition InlineText_index0 (word : InlineText) : JsVal := JsUndefined.

(** String conversion of an [InlineText] ([wordBuffer + ...]): the class
    defines no [toString], so [Object.prototype.toString] applies. *)
Definition InlineText_toString (word : InlineText) : string := "[object Object]".

(** [areStylesEqual]. *)
Definition areStylesEqual (a b : option InlineTextStyle) : bool :=
  match a, b with
  | None, None => true
  | None, Some _ | Some _, None => false
  | Some sa, Some sb =>
      match color sa, color sb with
      | None, None => true
      | Some ca, Some cb => String.eqb ca cb
      | _, _ => false
      end
  end.

(** ** The layout context *)

(** [parentStyle.whiteSpace]; any other value behaves as [normal]. *)
Inductive WhiteSpace : Type := WsNormal | WsNowrap | WsPre | WsPreWrap | WsPreLine.

(** [parentStyle.textAlign]. *)
Inductive TextAlign : Type := TaLeft | TaRight | TaCenter | TaJustify | TaStart | TaEnd.

(** The font engine returned by [font.getEngine]: [measure], [height] and
    [baseline] are pure functions of the text. *)
Record Engine : Type := {
  engine_measure : string -> Q;
  engine_height : string -> Q;
  engine_baseline : string -> Q
}.

(** What [buildTextNodes] reads from [context] and [parentStyle], together
    with the two imports of [utils.ts] that are not part of this file:
    [wordSeparators] and the grapheme segmenter [segment(_, 'grapheme')]. *)
Record Context : Type := {
  engine : Engine;
  fontSize : Q;
  whiteSpace : WhiteSpace;
  isBreakWord : bool;
  textAlign : TextAlign;
  textOverflowEllipsis : bool;
  textDecorationLine : bool;
  embedFont : bool;
  graphemeImages : option (gmap string string);
  wordSeparators : list string;
  segmentGraphemes : string -> list string
}.

Definition LF : string := String (ascii_of_nat 10) EmptyString.

Definition WhiteSpace_eqb (a b : WhiteSpace) : bool :=
  match a, b with
  | WsNormal, WsNormal | WsNowrap, WsNowrap | WsPre, WsPre
  | WsPreWrap, WsPreWrap | WsPreLine, WsPreLine => true
  | _, _ => false
  end.

(** [['pre', 'pre-wrap', 'pre-line'].includes(whiteSpace)]. *)
Definition shouldKeepLinebreak (ctx : Context) : bool :=
  match whiteSpace ctx with
  | WsPre | WsPreWrap | WsPreLine => true
  | _ => false
  end.

(** [!['pre', 'pre-wrap'].includes(whiteSpace)]. *)
Definition shouldCollapseWhitespace (ctx : Context) : bool :=
  match whiteSpace ctx with
  | WsPre | WsPreWrap => false
  | _ => true
  end.

(** [graphemeImages && graphemeImages[c]] as a condition: a non-empty
    image source registered for [c]. *)
Definition isImage (ctx : Context) (c : string) : bool :=
  match graphemeImages ctx with
  | None => false
  | Some imgs =>
      match imgs !! c with
      | Some src => negb (String.eqb src "")
      | None => false
      end
  end.

(** ** The shared store *)

(** An entry of [wordPositionInLayout]. *)
Record WordPosition : Type := {
  pos_x : Q;
  pos_y : Q;
  pos_width : Q;
  pos_line : nat;
  pos_lineIndex : Z
}.

(** A cell of the array [wordPositionInLayout]: never written
    ([undefined]), [null], or a record. *)
Inductive Slot : Type :=
  | Hole
  | Null
  | Pos (p : WordPosition).

(** The variables of [buildTextNodes] that the measurement callback and
    the painter share. *)
Record Store : Type := {
  words : list InlineText;
  lineWidths : list Q;
  baselines : list Q;
  lineSegmentNumber : list Z;
  wordPositionInLayout : list Slot;
  wordWidthCache : gmap string Q
}.

(** [arr[i] = v] on a JavaScript array: in range it overwrites, beyond the
    end the array grows and the cells in between are holes. *)
Definition array_set {A : Type} (hole : A) (i : nat) (v : A) (arr : list A) : list A :=
  if (i <? length arr)%nat
  then <[i:=v]> arr
  else arr ++ replicate (i - length arr) hole ++ [v].

(** [arr.splice(i, 1, ...items)]. *)
Definition splice1 {A : Type} (i : nat) (items : list A) (arr : list A) : list A :=
  take i arr ++ items ++ drop (S i) arr.

(** [arr[arr.length - 1]++] on an array of counters. *)
Definition incr_last (arr : list Z) : list Z :=
  match arr with
  | [] => []
  | _ => <[Nat.pred (length arr) := (default 0%Z (last arr) + 1)%Z]> arr
  end.

(** [measureWithCache]: the loop over [segments], with the running
    [total] and the cache. *)
Fixpoint measureWithCache_loop (e : Engine) (segments : list string)
    (total : Q) (cache : gmap string Q) : Q * gmap string Q :=
  match segments with
  | [] => (total, cache)
  | s :: rest =>
      match cache !! s with
      | Some w => measureWithCache_loop e rest (total + w) cache
      | None =>
          let w := engine_measure e s in
          measureWithCache_loop e rest (total + w) (<[s:=w]> cache)
      end
  end.

Definition measureWithCache (e : Engine) (segments : list string)
    (cache : gmap string Q) : Q * gmap string Q :=
  measureWithCache_loop e segments 0 cache.

(** ** Exceptions *)

Inductive JsError : Type :=
  | TypeError (msg : string).

(** A computation that returns or throws. *)
Inductive Result (A : Type) : Type :=
  | Ok (a : A)
  | Throw (e : JsError).
Arguments Ok {A} a.
Arguments Throw {A} e.

#[global] Instance Result_ret : MRet Result := fun A a => Ok a.

#[global] Instance Result_bind : MBind Result := fun A B k r =>
  match r with
  | Ok a => k a
  | Throw e => Throw e
  end.

(** [v.content] on the result of a property read: reading a property of
    [undefined] throws; a string has no property [content]. *)
Definition read_content (v : JsVal) : Result JsVal :=
  match v with
  | JsUndefined =>
      Throw (TypeError "Cannot read properties of undefined (reading 'content')")
  | JsStr _ => Ok JsUndefined
  end.

(** [v === s] for a string literal [s]. *)
Definition strict_eq_str (v : JsVal) (s : string) : bool :=
  match v with
  | JsUndefined => false
  | JsStr t => String.eqb t s
  end.

(** ** The minimal width of the parent *)

(** The three accumulators of the scan. *)
Record ScanState : Type := {
  minWidth : Q;
  remainingSegment : list string;
  extraWidth : Q
}.

(** One iteration of [for (const word of words)] of the min-width scan. *)
Definition minWidthStep (ctx : Context) (word : InlineText)
    (s : ScanState) (cache : gmap string Q) : Result (ScanState * gmap string Q) :=
  let image := isImage ctx (content word) in
  breakSegment ←
    match whiteSpace ctx with
    | WsPre =>
        c ← read_content (InlineText_index0 word);
        Ok (strict_eq_str c LF)
    | WsNowrap => Ok false
    | _ =>
        Ok (image || includes_js (wordSeparators ctx) (str_index0 (content word)))
    end;
  if negb breakSegment then
    if negb (includes_js (wordSeparators ctx) (str_index0 (content word)))
       || (length (remainingSegment s) =? 0)%nat
    then
      Ok ({| minWidth := minWidth s;
             remainingSegment :=
               remainingSegment s ++
                 [if String.eqb (content word) LF then " " else content word];
             extraWidth := extraWidth s |}, cache)
    else Ok (s, cache)
  else
    match whiteSpace ctx with
    | WsNowrap =>
        let '(m, cache') := measureWithCache (engine ctx) (remainingSegment s) cache in
        Ok ({| minWidth := minWidth s;
               remainingSegment := [];
               extraWidth := extraWidth s + (m + fontSize ctx) |}, cache')
    | _ =>
        let '(m, cache') := measureWithCache (engine ctx) (remainingSegment s) cache in
        let mw := Math_max (minWidth s) m in
        let mw' := if image then Math_max mw (fontSize ctx) else mw in
        Ok ({| minWidth := mw'; remainingSegment := []; extraWidth := extraWidth s |},
            cache')
    end.

Fixpoint minWidthLoop (ctx : Context) (ws : list InlineText)
    (s : ScanState) (cache : gmap string Q) : Result (ScanState * gmap string Q) :=
  match ws with
  | [] => Ok (s, cache)
  | word :: rest =>
      r ← minWidthStep ctx word s cache;
      minWidthLoop ctx rest (fst r) (snd r)
  end.

(** The whole scan, up to
    [minWidth = Math.max(minWidth, measureWithCache(remainingSegment) + extraWidth)]. *)
Definition minWidthScan (ctx : Context) (ws : list InlineText)
    (cache : gmap string Q) : Result (Q * gmap string Q) :=
  r ← minWidthLoop ctx ws
        {| minWidth := 0; remainingSegment := []; extraWidth := 0 |} cache;
  let '(m, cache') := measureWithCache (engine ctx) (remainingSegment (fst r)) (snd r) in
  Ok (Math_max (minWidth (fst r)) (m + extraWidth (fst r)), cache').

(** A Yoga length: [unit] is [1] for points; [value] is [NaN] when the
    length is not set. *)
Record YogaValue : Type := {
  yg_unit : Z;
  yg_value : num
}.

(** The part of the parent node that the scan reads and writes. *)
Record Parent : Type := {
  getWidth : YogaValue;
  getMinWidth : YogaValue;
  getMaxWidth : YogaValue
}.

(** [parent.setMinWidth(w)]: a length in points. *)
Definition setMinWidth (w : Q) (p : Parent) : Parent :=
  {| getWidth := getWidth p;
     getMinWidth := {| yg_unit := 1; yg_value := Some w |};
     getMaxWidth := getMaxWidth p |}.

(** The guard of lines 234-238. *)
Definition minWidthGuard (minW : Q) (p : Parent) : bool :=
  isNaN (yg_value (getWidth p)) &&
  (isNaN (yg_value (getMinWidth p)) ||
   ((yg_unit (getMinWidth p) =? 1)%Z && num_gt (yg_value (getMinWidth p)) (Some minW))).

(** Lines 231-248: the computed [minWidth] and the parent.  (The call of
    [setFlexShrink] that follows does not depend on the text.) *)
Definition applyMinWidth (minW : Q) (p : Parent) : Parent :=
  if minWidthGuard minW p then
    let minW' :=
      match yg_value (getMaxWidth p) with
      | Some mx => if (yg_unit (getMaxWidth p) =? 1)%Z then Math_min minW mx else minW
      | None => minW
      end in
    setMinWidth minW' p
  else p.

(** ** The measurement callback *)

(** The [let] variables of one call of the callback. *)
Record Locals : Type := {
  lines : nat;
  remainingSpace : string;
  remainingSpaceWidth : Q;
  _currentWidth : Q;
  maxWidth : Q;
  lineIndex : Z;
  height : Q;
  currentLineHeight : Q;
  currentBaselineOffset : Q
}.

(** The values of lines 261-269. *)
Definition initLocals : Locals :=
  {| lines := 0; remainingSpace := ""; remainingSpaceWidth := 0;
     _currentWidth := 0; maxWidth := 0; lineIndex := (-1)%Z; height := 0;
     currentLineHeight := 0; currentBaselineOffset := 0 |}.

(** The condition of lines 283-291.  The separator test is made on
    [word[0]], a property of the [InlineText] object. *)
Definition isCollapsedSpace (ctx : Context) (word : InlineText) (forceBreak : bool) : bool :=
  shouldCollapseWhitespace ctx
  && includes_js (wordSeparators ctx) (InlineText_index0 word)
  && negb forceBreak.

(** One iteration of the [for] loop of the callback at index [i], where
    [word = words[i]].  The index is incremented by the loop in every case,
    also after the [continue] of the break-word branch. *)
Definition measureBody (ctx : Context) (width : Q) (i : nat) (word : InlineText)
    (st : Store) (loc : Locals) : Store * Locals :=
  let e := engine ctx in
  let forceBreak := shouldKeepLinebreak ctx && String.eqb (content word) LF in
  if isCollapsedSpace ctx word forceBreak then
    let space := if String.eqb (remainingSpace loc) "" then " " else remainingSpace loc in
    let '(sw, cache') := measureWithCache e [space] (wordWidthCache st) in
    ({| words := words st; lineWidths := lineWidths st; baselines := baselines st;
        lineSegmentNumber := lineSegmentNumber st;
        wordPositionInLayout := array_set Hole i Null (wordPositionInLayout st);
        wordWidthCache := cache' |},
     {| lines := lines loc; remainingSpace := space; remainingSpaceWidth := sw;
        _currentWidth := _currentWidth loc; maxWidth := maxWidth loc;
        lineIndex := lineIndex loc; height := height loc;
        currentLineHeight := currentLineHeight loc;
        currentBaselineOffset := currentBaselineOffset loc |})
  else
    let '(w, cache') :=
      if forceBreak then (0, wordWidthCache st)
      else if isImage ctx (content word) then (fontSize ctx, wordWidthCache st)
      else measureWithCache e [content word] (wordWidthCache st) in
    let lineHeight0 :=
      if forceBreak && Qeq_bool (currentLineHeight loc) 0
      then engine_height e (content word) else currentLineHeight loc in
    let cw := _currentWidth loc in
    let space := if truthy cw then remainingSpace loc else "" in
    let sw := if truthy cw then remainingSpaceWidth loc else 0 in
    let allowedToPutAtBeginning :=
      truthy sw || (indexOf_js ",.!?:-@)>]}%#" (InlineText_index0 word) <? 0)%Z in
    let allowedToJustify := negb (truthy cw) || truthy sw in
    let willWrap :=
      negb (i =? 0)%nat && allowedToPutAtBeginning && Qgtb (cw + sw + w) width
      && negb (WhiteSpace_eqb (whiteSpace ctx) WsNowrap)
      && negb (WhiteSpace_eqb (whiteSpace ctx) WsPre) in
    let needToBreakWord :=
      isBreakWord ctx && Qgtb w width && (negb (truthy cw) || willWrap || forceBreak) in
    if needToBreakWord then
      let chars := "" :: segmentGraphemes ctx (content word) in
      let words' :=
        splice1 i (map (fun c => {| content := c; style := style word |}) chars) (words st) in
      if Qgtb cw 0 then
        ({| words := words'; lineWidths := lineWidths st ++ [cw];
            baselines := baselines st ++ [currentBaselineOffset loc];
            lineSegmentNumber := lineSegmentNumber st ++ [1%Z];
            wordPositionInLayout := wordPositionInLayout st;
            wordWidthCache := cache' |},
         {| lines := S (lines loc); remainingSpace := space; remainingSpaceWidth := sw;
            _currentWidth := 0; maxWidth := maxWidth loc; lineIndex := (-1)%Z;
            height := height loc + lineHeight0;
            currentLineHeight := 0; currentBaselineOffset := 0 |})
      else
        ({| words := words'; lineWidths := lineWidths st; baselines := baselines st;
            lineSegmentNumber := lineSegmentNumber st;
            wordPositionInLayout := wordPositionInLayout st;
            wordWidthCache := cache' |},
         {| lines := lines loc; remainingSpace := space; remainingSpaceWidth := sw;
            _currentWidth := cw; maxWidth := maxWidth loc; lineIndex := lineIndex loc;
            height := height loc; currentLineHeight := lineHeight0;
            currentBaselineOffset := currentBaselineOffset loc |})
    else
      let newLine := forceBreak || willWrap in
      let glyphHeight := engine_height e (content word) in
      let taller := Qgtb glyphHeight lineHeight0 in
      let lineWidths' := if newLine then lineWidths st ++ [cw] else lineWidths st in
      let baselines' :=
        if newLine then baselines st ++ [currentBaselineOffset loc] else baselines st in
      let lines' := if newLine then S (lines loc) else lines loc in
      let height' := if newLine then height loc + lineHeight0 else height loc in
      let cw' := if newLine then w else cw + (sw + w) in
      let lineHeight' :=
        if newLine then (if truthy w then engine_height e (content word) else 0)
        else if taller then glyphHeight else lineHeight0 in
      let baseline' :=
        if newLine then (if truthy w then engine_baseline e (content word) else 0)
        else if taller then engine_baseline e (content word)
        else currentBaselineOffset loc in
      let segs' :=
        if newLine then lineSegmentNumber st ++ [1%Z]
        else if allowedToJustify then incr_last (lineSegmentNumber st)
        else lineSegmentNumber st in
      let maxWidth0 :=
        if newLine && negb forceBreak then Math_max (maxWidth loc) width else maxWidth loc in
      let lineIndex0 := if newLine then (-1)%Z else lineIndex loc in
      let lineIndex' := if allowedToJustify then (lineIndex0 + 1)%Z else lineIndex0 in
      let position :=
        {| pos_x := cw' - w; pos_y := height'; pos_width := w; pos_line := lines';
           pos_lineIndex := lineIndex' |} in
      ({| words := words st; lineWidths := lineWidths'; baselines := baselines';
          lineSegmentNumber := segs';
          wordPositionInLayout := array_set Hole i (Pos position) (wordPositionInLayout st);
          wordWidthCache := cache' |},
       {| lines := lines'; remainingSpace := ""; remainingSpaceWidth := 0;
          _currentWidth := cw'; maxWidth := Math_max maxWidth0 cw';
          lineIndex := lineIndex'; height := height';
          currentLineHeight := lineHeight'; currentBaselineOffset := baseline' |}).

(** The [for (let i = 0; i < words.length; i++)] loop.  The loop re-reads
    [words.length] at every test and [words] can grow inside the body, so
    the number of iterations is not known on entry: [fuel] bounds it, and
    [None] means that the bound was reached before the loop ended. *)
Fixpoint measureLoop (ctx : Context) (width : Q) (fuel : nat) (i : nat)
    (st : Store) (loc : Locals) : option (Store * Locals) :=
  match fuel with
  | O => None
  | S fuel' =>
      match words st !! i with
      | None => Some (st, loc)
      | Some word =>
          let '(st', loc') := measureBody ctx width i word st loc in
          measureLoop ctx width fuel' (S i) st' loc'
      end
  end.

(** The store on entry of the loop: [lineWidths = []] and
    [lineSegmentNumber = [0]] (lines 271-272); nothing else is reset. *)
Definition measureEnter (st : Store) : Store :=
  {| words := words st; lineWidths := []; baselines := baselines st;
     lineSegmentNumber := [0%Z];
     wordPositionInLayout := wordPositionInLayout st;
     wordWidthCache := wordWidthCache st |}.

(** Lines 404-409: the last line is recorded if it is not empty. *)
Definition measureFlush (st : Store) (loc : Locals) : Store * Locals :=
  if truthy (_currentWidth loc) then
    ({| words := words st; lineWidths := lineWidths st ++ [_currentWidth loc];
        baselines := baselines st ++ [currentBaselineOffset loc];
        lineSegmentNumber := lineSegmentNumber st;
        wordPositionInLayout := wordPositionInLayout st;
        wordWidthCache := wordWidthCache st |},
     {| lines := S (lines loc); remainingSpace := remainingSpace loc;
        remainingSpaceWidth := remainingSpaceWidth loc;
        _currentWidth := _currentWidth loc; maxWidth := maxWidth loc;
        lineIndex := lineIndex loc; height := height loc + currentLineHeight loc;
        currentLineHeight := currentLineHeight loc;
        currentBaselineOffset := currentBaselineOffset loc |})
  else (st, loc).

(** The body of the callback with the final values of its variables. *)
Definition measureCall (ctx : Context) (fuel : nat) (width : Q) (st : Store)
    : option (Store * Locals) :=
  match measureLoop ctx width fuel 0 (measureEnter st) initLocals with
  | Some (st', loc) => Some (measureFlush st' loc)
  | None => None
  end.

(** The value returned to Yoga: [{ width: maxWidth, height }]. *)
Record Size : Type := { size_width : Q; size_height : Q }.

(** The callback passed to [setMeasureFunc]: the returned size and the
    store it leaves behind. *)
Definition measureFunc (ctx : Context) (fuel : nat) (width : Q) (st : Store)
    : option (Size * Store) :=
  match measureCall ctx fuel width st with
  | Some (st', loc) =>
      Some ({| size_width := maxWidth loc; size_height := height loc |}, st')
  | None => None
  end.

(** ** The painter *)

(** The committed geometry the painter reads: [left = x + containerLeft],
    [top = y + containerTop], the width of the text container and the
    content-box width of the parent. *)
Record Geometry : Type := {
  left : Q;
  top : Q;
  containerWidth : Q;
  parentContainerInnerWidth : Q
}.

(** An entry of [decorationLines]: [[leftOffset, width]] and the flag
    written at index [2] once the shape of the line is emitted. *)
Record DecorationLine : Type := {
  deco_left : num;
  deco_width : num;
  deco_emitted : bool
}.

(** The calls to the external builders, in the order they are made. *)
Inductive Event : Type :=
  | EvGetSVG (text : string) (at_left at_top : num)
  | EvDecoration (at_left at_top width : num) (ascender : Q)
  | EvText (text : string) (at_left at_top : num) (width height : Q)
      (image : option string) (style : option InlineTextStyle).

(** The [let] variables of the painter that live across iterations; every
    event is recorded with the index of the iteration that made the call. *)
Record PaintState : Type := {
  skippedLine : Z;
  decorationLines : gmap nat DecorationLine;
  wordBuffer : option InlineText;
  bufferedOffset : num;
  paintCache : gmap string Q;
  events : list (nat * Event)
}.

Definition ellipsis : string := "…".

(** [graphemeImages ? graphemeImages[c] : null]. *)
Definition imageOf (ctx : Context) (c : string) : option string :=
  match graphemeImages ctx with
  | None => None
  | Some imgs => imgs !! c
  end.

(** Truthiness of a string or of an absent value. *)
Definition truthy_str (s : option string) : bool :=
  match s with
  | Some t => negb (String.eqb t "")
  | None => false
  end.

(** Lines 497-516: the left offset after alignment, and [extendedWidth]. *)
Definition alignedOffset (ctx : Context) (g : Geometry) (st : Store)
    (layout : WordPosition) : num * bool :=
  let leftOffset : num := Some (pos_x layout) in
  let line := pos_line layout in
  if (1 <? length (lineWidths st))%nat then
    let remainingWidth := num_sub (Some (containerWidth g)) (lineWidths st !! line) in
    match textAlign ctx with
    | TaRight | TaEnd => (num_add leftOffset remainingWidth, false)
    | TaCenter => (num_add leftOffset (num_div remainingWidth (Some 2)), false)
    | TaJustify =>
        if (line <? length (lineWidths st) - 1)%nat then
          let gutter : num :=
            match lineSegmentNumber st !! line with
            | Some segments =>
                if (1 <? segments)%Z
                then num_div remainingWidth (Some (inject_Z (segments - 1)))
                else Some 0
            | None => Some 0
            end in
          (num_add leftOffset (num_mul gutter (Some (inject_Z (pos_lineIndex layout)))),
           true)
        else (leftOffset, false)
    | _ => (leftOffset, false)
    end
  else (leftOffset, false).

(** Lines 534-550: the scan of the graphemes of the truncated word. *)
Fixpoint ellipsisLoop (e : Engine) (x ellipsisWidth inner : Q) (chars : list string)
    (subset : string) (resolvedWidth : Q) (cache : gmap string Q)
    : string * Q * gmap string Q :=
  match chars with
  | [] => (subset, resolvedWidth, cache)
  | char :: rest =>
      let '(m, cache') := measureWithCache e [subset +:+ char] cache in
      let w := x + m in
      if negb (String.eqb subset "") && Qgtb (w + ellipsisWidth) inner
      then (subset, resolvedWidth, cache')
      else ellipsisLoop e x ellipsisWidth inner rest (subset +:+ char) w cache'
  end.

(** Lines 525-556.  The result is [None] when the word is left as it is,
    and the kept prefix with its width when the word is truncated. *)
Definition truncate (ctx : Context) (g : Geometry) (st : Store)
    (ellipsisWidth spaceWidth : Q) (word : InlineText) (layout : WordPosition)
    (cache : gmap string Q) : option (string * Q) * gmap string Q :=
  let inner := parentContainerInnerWidth g in
  if textOverflowEllipsis ctx
     && num_gt (lineWidths st !! pos_line layout) (Some inner)
     && Qgtb (pos_x layout + pos_width layout + ellipsisWidth + spaceWidth) inner
  then
    let '(subset, resolvedWidth, cache') :=
      ellipsisLoop (engine ctx) (pos_x layout) ellipsisWidth inner
        (segmentGraphemes ctx (content word)) "" 0 cache in
    (Some (subset, resolvedWidth), cache')
  else (None, cache).

(** Lines 569-576: the condition under which the word is buffered to be
    merged with the next one; [original] is [words[i]] and [word] the
    possibly truncated word.  [graphemeImages[...]] is read without a
    guard. *)
Definition mergeCondition (ctx : Context) (st : Store) (i : nat)
    (original word : InlineText) (topOffset : Q) : Result bool :=
  if existsb (String.eqb (content word)) (wordSeparators ctx) then Ok false
  else
    match words st !! S i with
    | None => Ok false
    | Some next =>
        match graphemeImages ctx with
        | None =>
            Throw (TypeError "Cannot read properties of undefined")
        | Some imgs =>
            if truthy_str (imgs !! content next) then Ok false
            else
              match wordPositionInLayout st !! S i with
              | Some (Pos nextLayout) =>
                  Ok (Qeq_bool topOffset (pos_y nextLayout)
                      && areStylesEqual (style original) (style next))
              | _ => Ok false
              end
        end
    end.

(** [line !== wordPositionInLayout[i + 1]?.line]. *)
Definition lastOfLine (st : Store) (i line : nat) : bool :=
  match wordPositionInLayout st !! S i with
  | Some (Pos nextLayout) => negb (pos_line nextLayout =? line)%nat
  | _ => true
  end.

(** One iteration of the painter's loop (lines 477-688) at index [i]. *)
Definition paintWord (ctx : Context) (g : Geometry) (st : Store)
    (ellipsisWidth spaceWidth : Q) (i : nat) (ps : PaintState) : Result PaintState :=
  match words st !! i, wordPositionInLayout st !! i with
  | Some original, Some (Pos layout) =>
      let e := engine ctx in
      let line := pos_line layout in
      let image := imageOf ctx (content original) in
      if (Z.of_nat line =? skippedLine ps)%Z then Ok ps
      else
        let '(leftOffset, extendedWidth) := alignedOffset ctx g st layout in
        let decos0 :=
          match decorationLines ps !! line with
          | Some _ => decorationLines ps
          | None =>
              <[line := {| deco_left := leftOffset;
                           deco_width := if extendedWidth then Some (containerWidth g)
                                         else lineWidths st !! line;
                           deco_emitted := false |}]> (decorationLines ps)
          end in
        let '(truncated, cache') :=
          truncate ctx g st ellipsisWidth spaceWidth original layout (paintCache ps) in
        let word :=
          match truncated with
          | Some (subset, _) => {| content := subset +:+ ellipsis; style := style original |}
          | None => original
          end in
        let skipped' :=
          match truncated with Some _ => Z.of_nat line | None => skippedLine ps end in
        let decos1 :=
          match truncated with
          | Some (_, resolvedWidth) =>
              alter (fun d => {| deco_left := deco_left d;
                                 deco_width := Some resolvedWidth;
                                 deco_emitted := deco_emitted d |}) line decos0
          | None => decos0
          end in
        let baselineOfLine : num := baselines st !! line in
        let baselineOfWord := engine_baseline e (content word) in
        let heightOfWord := engine_height e (content word) in
        let baselineDelta := num_sub baselineOfLine (Some baselineOfWord) in
        let topOffset : num := Some (pos_y layout) in
        (* what the three branches of lines 563-636 leave behind: either the
           word is buffered and the iteration ends, or it goes on with the
           top offset, the outline request (if any) and the buffer *)
        branch ←
          (if truthy_str image then Ok (Some (topOffset, None, wordBuffer ps))
           else if embedFont ctx then
             merge ← mergeCondition ctx st i original word (pos_y layout);
             if merge : bool then Ok None
             else
               let finalizedSegment :=
                 match wordBuffer ps with
                 | None => word
                 | Some buffered =>
                     {| content := content buffered +:+ content word; style := style word |}
                 end in
               let finalizedLeftOffset :=
                 match wordBuffer ps with
                 | None => leftOffset
                 | Some _ => bufferedOffset ps
                 end in
               let request :=
                 EvGetSVG (content finalizedSegment)
                   (num_add (Some (left g)) finalizedLeftOffset)
                   (num_add (num_add (num_add (Some (top g)) topOffset)
                                     (Some baselineOfWord)) baselineDelta) in
               Ok (Some (topOffset, Some request, None))
           else
             Ok (Some (num_add topOffset (num_add (Some baselineOfWord) baselineDelta),
                       None, wordBuffer ps)));
        match branch with
        | None =>
            Ok {| skippedLine := skipped';
                  decorationLines := decos1;
                  wordBuffer :=
                    Some (match wordBuffer ps with
                          | None => word
                          | Some buffered =>
                              {| content := InlineText_toString buffered +:+ content word;
                                 style := style word |}
                          end);
                  bufferedOffset :=
                    match wordBuffer ps with
                    | None => leftOffset
                    | Some _ => bufferedOffset ps
                    end;
                  paintCache := cache';
                  events := events ps |}
        | Some (topOffset', path, buffer') =>
            let decorate :=
              textDecorationLine ctx
              && (lastOfLine st i line || (skipped' =? Z.of_nat line)%Z) in
            let pending :=
              match decos1 !! line with
              | Some deco => if decorate && negb (deco_emitted deco) then Some deco else None
              | None => None
              end in
            let decos2 :=
              match pending with
              | Some deco =>
                  <[line := {| deco_left := deco_left deco; deco_width := deco_width deco;
                               deco_emitted := true |}]> decos1
              | None => decos1
              end in
            let decorationEvents :=
              match pending with
              | Some deco =>
                  [(i, EvDecoration (num_add (Some (left g)) (deco_left deco))
                         (Some (top g + heightOfWord * inject_Z (Z.of_nat line)))
                         (deco_width deco) (engine_baseline e (content word)))]
              | None => []
              end in
            let drawEvents :=
              match path with
              | Some request => [(i, request)]
              | None =>
                  [(i, EvText (content word) (num_add (Some (left g)) leftOffset)
                         (num_add (Some (top g)) topOffset') (pos_width layout)
                         heightOfWord image (style word))]
              end in
            Ok {| skippedLine := skipped';
                  decorationLines := decos2;
                  wordBuffer := buffer';
                  bufferedOffset := bufferedOffset ps;
                  paintCache := cache';
                  events :=
                    events ps ++
                      match path with
                      | Some _ => drawEvents ++ decorationEvents
                      | None => decorationEvents ++ drawEvents
                      end |}
        end
  | _, _ => Ok ps
  end.

Fixpoint paintLoop (ctx : Context) (g : Geometry) (st : Store)
    (ellipsisWidth spaceWidth : Q) (indices : list nat) (ps : PaintState)
    : Result PaintState :=
  match indices with
  | [] => Ok ps
  | i :: rest =>
      ps' ← paintWord ctx g st ellipsisWidth spaceWidth i ps;
      paintLoop ctx g st ellipsisWidth spaceWidth rest ps'
  end.

(** The painter, from the initial values of lines 467-475 to the end of the
    loop over [words]. *)
Definition paint (ctx : Context) (g : Geometry) (st : Store) : Result PaintState :=
  let '(ellipsisWidth, cache1) :=
    if textOverflowEllipsis ctx
    then measureWithCache (engine ctx) [ellipsis] (wordWidthCache st)
    else (0, wordWidthCache st) in
  let '(spaceWidth, cache2) :=
    if textOverflowEllipsis ctx
    then measureWithCache (engine ctx) [" "] cache1
    else (0, cache1) in
  paintLoop ctx g st ellipsisWidth spaceWidth (seq 0 (length (words st)))
    {| skippedLine := (-1)%Z; decorationLines := ∅; wordBuffer := None;
       bufferedOffset := Some 0; paintCache := cache2; events := [] |}.

(** ** One layout invocation *)

(** The store when the callback is registered: the arrays of lines 162-171
    are empty and the cache holds what the min-width scan measured. *)
Definition initStore (ws : list InlineText) (cache : gmap string Q) : Store :=
  {| words := ws; lineWidths := []; baselines := []; lineSegmentNumber := [];
     wordPositionInLayout := []; wordWidthCache := cache |}.

(** Yoga calls the callback once for every width of [widths], in order. *)
Fixpoint measureCalls (ctx : Context) (fuel : nat) (widths : list Q) (st : Store)
    : option (list Size * Store) :=
  match widths with
  | [] => Some ([], st)
  | width :: rest =>
      match measureFunc ctx fuel width st with
      | Some (size, st') =>
          match measureCalls ctx fuel rest st' with
          | Some (sizes, st'') => Some (size :: sizes, st'')
          | None => None
          end
      | None => None
      end
  end.

(** How an invocation ends. *)
Inductive Outcome (A : Type) : Type :=
  | Returns (a : A)
  | Raises (e : JsError)
  | Unfinished.
Arguments Returns {A} a.
Arguments Raises {A} e.
Arguments Unfinished {A}.

(** [buildTextNodes] from the min-width scan on: the scan and its effect on
    the parent, the calls of the callback that Yoga makes with [widths],
    and the painter on the committed geometry [g]. *)
Definition buildTextNodes (ctx : Context) (fuel : nat) (ws : list InlineText)
    (parent : Parent) (widths : list Q) (g : Geometry)
    : Outcome (Parent * Store * PaintState) :=
  match minWidthScan ctx ws ∅ with
  | Throw err => Raises err
  | Ok (minW, cache) =>
      let parent' := applyMinWidth minW parent in
      match measureCalls ctx fuel widths (initStore ws cache) with
      | None => Unfinished
      | Some (_, st) =>
          match paint ctx g st with
          | Throw err => Raises err
          | Ok ps => Returns (parent', st, ps)
          end
      end
  end.

(** ** A sample font engine and context

    Every character is 10 wide, and so is the ellipsis glyph; a text that
    starts with an upper-case [A] is 20 high with its baseline at 16, any
    other text is 12 high with its baseline at 9.  Graphemes are single characters, and the separators are
    the space and the line feed. *)
Module Sample.

Definition chars (s : string) : list string :=
  map (fun c => String c EmptyString) (list_ascii_of_string s).

Definition startsWithA (s : string) : bool :=
  match s with
  | String c _ => Ascii.eqb c "A"
  | EmptyString => false
  end.

Definition font : Engine :=
  {| engine_measure := fun s =>
       if String.eqb s ellipsis then 10
       else inject_Z (10 * Z.of_nat (String.length s));
     engine_height := fun s => if startsWithA s then 20 else 12;
     engine_baseline := fun s => if startsWithA s then 16 else 9 |}.

Definition context (ws : WhiteSpace) (breakWord : bool) (align : TextAlign)
    (overflowEllipsis embed : bool) (images : option (gmap string string)) : Context :=
  {| engine := font; fontSize := 16; whiteSpace := ws; isBreakWord := breakWord;
     textAlign := align; textOverflowEllipsis := overflowEllipsis;
     textDecorationLine := false; embedFont := embed; graphemeImages := images;
     wordSeparators := [" "; LF]; segmentGraphemes := chars |}.

(** Words without a style of their own. *)
Definition plain (ws : list string) : list InlineText :=
  map (fun s => {| content := s; style := None |}) ws.

(** Yoga lengths: [auto] (unit 3) and undefined (unit 0) have the value
    [NaN]; a length in points has unit 1. *)
Definition autoLength : YogaValue := {| yg_unit := 3; yg_value := None |}.
Definition undefinedLength : YogaValue := {| yg_unit := 0; yg_value := None |}.
Definition points (q : Q) : YogaValue := {| yg_unit := 1; yg_value := Some q |}.

(** A parent without width, min-width or max-width. *)
Definition freeParent : Parent :=
  {| getWidth := autoLength; getMinWidth := undefinedLength;
     getMaxWidth := undefinedLength |}.

Definition geometry (width inner : Q) : Geometry :=
  {| left := 0; top := 0; containerWidth := width;
     parentContainerInnerWidth := inner |}.

(** The contexts of the examples. *)
Definition normalContext : Context :=
  context WsNormal false TaLeft false false (Some ∅).
Definition preContext : Context :=
  context WsPre false TaLeft false false (Some ∅).
Definition preWrapContext : Context :=
  context WsPreWrap false TaLeft false false (Some ∅).
Definition breakWordContext : Context :=
  context WsNormal true TaLeft false false (Some ∅).
Definition justifyContext : Context :=
  context WsNormal false TaJustify false false (Some ∅).
Definition embedContext : Context :=
  context WsNormal false TaLeft false true (Some ∅).
Definition embedNoImagesContext : Context :=
  context WsNormal false TaLeft false true None.
Definition ellipsisContext : Context :=
  context WsNowrap true TaLeft true false (Some ∅).

(** The texts of the examples. *)
Definition helloWorld : list InlineText := plain ["Hello"; " "; "World"].
Definition trailingNewline : list InlineText := plain ["a"; LF].
Definition W : InlineText := {| content := "W"; style := None |}.
Definition twoFonts : list InlineText := plain ["b"; "A"].
Definition spaced : list InlineText := plain ["a"; " "; "b"].
Definition abc : list InlineText := plain ["a"; "b"; "c"].
Definition ab : list InlineText := plain ["a"; "b"].
Definition abcdef : list InlineText := plain ["abcdef"].

(** A parent without width and with an inherited min-width in points. *)
Definition parentMin (q : Q) : Parent :=
  {| getWidth := autoLength; getMinWidth := points q; getMaxWidth := undefinedLength |}.

(** The store after one call of the callback on [ws] with [width]. *)
Definition measured (ctx : Context) (fuel : nat) (width : Q) (ws : list InlineText)
    : Store :=
  match measureFunc ctx fuel width (initStore ws ∅) with
  | Some (_, st) => st
  | None => initStore ws ∅
  end.

Definition fourWords : list InlineText :=
  plain ["aa"; " "; "bb"; " "; "cc"; " "; "dd"].

(** A store whose first line has three justified segments. *)
Definition threeSegments : Store :=
  {| words := plain ["a"; "b"; "c"; "d"]; lineWidths := [30; 10]; baselines := [9; 9];
     lineSegmentNumber := [3%Z; 1%Z]; wordPositionInLayout := [];
     wordWidthCache := ∅ |}.

End Sample.

(** ** Predicates of the statements *)

(** The line arrays inside the loop of the callback: the open line has its
    counter in [lineSegmentNumber] but no width yet, and the call has pushed
    one baseline for each width onto the [b0] baselines it found. *)
Definition lineInv (b0 : nat) (st : Store) : Prop :=
  length (lineSegmentNumber st) = S (length (lineWidths st))
  /\ length (baselines st) = (b0 + length (lineWidths st))%nat.

(** The three per-line arrays have the same length. *)
Definition linesAligned (st : Store) : Prop :=
  length (lineWidths st) = length (baselines st)
  /\ length (baselines st) = length (lineSegmentNumber st).

(** The cache only holds widths that the engine returned. *)
Definition cache_ok (e : Engine) (cache : gmap string Q) : Prop :=
  forall s q, cache !! s = Some q -> q = engine_measure e s.

(** Two stores that a call of the callback cannot tell apart as far as its
    result is concerned. *)
Definition sameInput (e : Engine) (st1 st2 : Store) : Prop :=
  words st1 = words st2
  /\ cache_ok e (wordWidthCache st1)
  /\ cache_ok e (wordWidthCache st2).

(** The concatenation of a list of graphemes ([subset += char]). *)
Definition join (l : list string) : string := foldr String.append "" l.

(** The condition under which the computed min-width is written, as the
    specification words it: no explicit width, and no inherited min-width
    or one in points that is smaller than the computed value. *)
Definition claimedMinWidthGuard (minW : Q) (p : Parent) : bool :=
  isNaN (yg_value (getWidth p)) &&
  (isNaN (yg_value (getMinWidth p)) ||
   ((yg_unit (getMinWidth p) =? 1)%Z && num_gt (Some minW) (yg_value (getMinWidth p)))).

(** The same condition with the comparison of the code: the inherited
    min-width in points is greater than the computed value. *)
Definition writesMinWidth (minW : Q) (p : Parent) : Prop :=
  yg_value (getWidth p) = None
  /\ (yg_value (getMinWidth p) = None
      \/ (yg_unit (getMinWidth p) = 1%Z
          /\ exists m, yg_value (getMinWidth p) = Some m /\ minW < m)).

(** The computed min-width, not larger than a max-width in points. *)
Definition clampToMaxWidth (minW : Q) (p : Parent) : Q :=
  match yg_value (getMaxWidth p) with
  | Some mx => if (yg_unit (getMaxWidth p) =? 1)%Z then Math_min minW mx else minW
  | None => minW
  end.

(** The gutter of a justified line: [remainingWidth / (segments - 1)], and
    [0] when the line has at most one segment. *)
Definition gutter (remainingWidth : Q) (segments : Z) : Q :=
  if (1 <? segments)%Z then remainingWidth / inject_Z (segments - 1) else 0.

(** ** Further definitions *)

(** Lines 89-95: the runs are segmented, every segment becomes a word with
    the style of its run, and the lists are flattened. *)
Definition buildWords (segment : string -> list string) (contents : list InlineText)
    : list InlineText :=
  concat (map (fun c => map (fun word => {| content := word; style := style c |})
                            (segment (content c)))
              contents).

(** The width [w] of a word in the callback (lines 299-303) when the cache
    agrees with the engine. *)
Definition tokenWidth (ctx : Context) (s : string) : Q :=
  if shouldKeepLinebreak ctx && String.eqb s LF then 0
  else if isImage ctx s then fontSize ctx
  else 0 + engine_measure (engine ctx) s.

(** The first two conditions of [needToBreakWord]: break-word is on and the
    word is wider than the available width. *)
Definition oversized (ctx : Context) (width : Q) (s : string) : bool :=
  isBreakWord ctx && Qgtb (tokenWidth ctx s) width.

(** The graphemes of a word that can be split are not themselves wider
    than the available width. *)
Definition graphemesFit (ctx : Context) (width : Q) (word : InlineText) : Prop :=
  oversized ctx width (content word) = true ->
  Forall (fun g => oversized ctx width g = false) (segmentGraphemes ctx (content word)).

(** A bound on the iterations that a word costs: one, and one more for each
    grapheme when the word can be split. *)
Definition iterations (ctx : Context) (width : Q) (word : InlineText) : nat :=
  if oversized ctx width (content word)
  then S (length (segmentGraphemes ctx (content word)))
  else 1.

Definition totalIterations (ctx : Context) (width : Q) (ws : list InlineText) : nat :=
  foldr (fun word n => (iterations ctx width word + n)%nat) 0%nat ws.

(** The text of a call to a builder ([None] for a decoration). *)
Definition eventText (ev : Event) : option string :=
  match ev with
  | EvGetSVG text _ _ => Some text
  | EvText text _ _ _ _ _ _ => Some text
  | EvDecoration _ _ _ _ => None
  end.

(** The words of [indices] that have a position, with their index. *)
Definition positioned (st : Store) (indices : list nat) : list (nat * option string) :=
  omap (fun i =>
          match words st !! i, wordPositionInLayout st !! i with
          | Some word, Some (Pos _) => Some (i, Some (content word))
          | _, _ => None
          end) indices.

(** The state of the painter before its loop (lines 467-475). *)
Definition paintStart (cache : gmap string Q) : PaintState :=
  {| skippedLine := (-1)%Z; decorationLines := ∅; wordBuffer := None;
     bufferedOffset := Some 0; paintCache := cache; events := [] |}.

(** Sample inputs for the painter: a text of three words under
    [white-space: nowrap] with [text-overflow: ellipsis]. *)
Definition ellipsisSampleContext : Context :=
  Sample.context WsNowrap false TaLeft true false (Some ∅).
Definition ellipsisSampleStore : Store :=
  Sample.measured ellipsisSampleContext 5 400 (Sample.plain ["abc"; "def"; "gh"]).

(** The line of a cell of [wordPositionInLayout] that holds a position. *)
Definition slotLine (slot : Slot) : option nat :=
  match slot with
  | Pos p => Some (pos_line p)
  | _ => None
  end.

(** The font size and the widths of the engine are not negative. *)
Definition widthsNonneg (ctx : Context) : Prop :=
  0 <= fontSize ctx /\ forall s, 0 <= engine_measure (engine ctx) s.

(** A word position lies inside its line: its line is one of the [count]
    recorded lines or the open line after them; on a recorded line the word
    ends at or before the recorded width, on the open line at or before the
    running width [open]. *)
Definition inLine (widths : list Q) (count : nat) (open : Q) (slot : Slot) : Prop :=
  match slot with
  | Pos p =>
      (pos_line p <= count)%nat
      /\ (forall lineWidth, widths !! pos_line p = Some lineWidth ->
            pos_x p + pos_width p <= lineWidth)
      /\ (pos_line p = count -> pos_x p + pos_width p <= open)
  | _ => True
  end.

(** The line that a decoration call underlines: the line of the word in
    whose iteration the call was made ([None] for the other calls). *)
Definition decoratedLine (st : Store) (entry : nat * Event) : option nat :=
  match entry.2 with
  | EvDecoration _ _ _ _ => slot ← wordPositionInLayout st !! entry.1; slotLine slot
  | _ => None
  end.

(** The lines of the decoration calls of a trace, in the order of the
    calls. *)
Definition decoratedLines (st : Store) (trace : list (nat * Event)) : list nat :=
  omap (decoratedLine st) trace.

(** Every line of [lines] carries its mark ([deco[2] = 1]) in [decos]. *)
Definition marked (lines : list nat) (decos : gmap nat DecorationLine) : Prop :=
  forall line, line ∈ lines ->
    exists deco, decos !! line = Some deco /\ deco_emitted deco = true.

(** [decos'] keeps the marks of [decos]. *)
Definition keepsMarks (decos decos' : gmap nat DecorationLine) : Prop :=
  forall line deco, decos !! line = Some deco -> deco_emitted deco = true ->
    exists deco', decos' !! line = Some deco' /\ deco_emitted deco' = true.

(** A context with [text-decoration-line] set. *)
Definition underlinedContext : Context :=
  {| engine := Sample.font; fontSize := 16; whiteSpace := WsNormal;
     isBreakWord := false; textAlign := TaLeft; textOverflowEllipsis := false;
     textDecorationLine := true; embedFont := false; graphemeImages := None;
     wordSeparators := [" "; LF]; segmentGraphemes := Sample.chars |}.

(** Lines 531-533: the graphemes of the word that is truncated, each wrapped
    in an [InlineText] with the style of the word. *)
Definition ellipsisChars (ctx : Context) (word : InlineText) : list InlineText :=
  map (fun seg => {| content := seg; style := style word |})
      (segmentGraphemes ctx (content word)).

(** Lines 534-550 on these objects: [subset + char] and [subset += char]
    convert the object [char] to a string. *)
Fixpoint ellipsisScan (e : Engine) (x ellipsisWidth inner : Q) (chars : list InlineText)
    (subset : string) (resolvedWidth : Q) (cache : gmap string Q)
    : string * Q * gmap string Q :=
  match chars with
  | [] => (subset, resolvedWidth, cache)
  | char :: rest =>
      let '(m, cache') :=
        measureWithCache e [subset +:+ InlineText_toString char] cache in
      let w := x + m in
      if negb (String.eqb subset "") && Qgtb (w + ellipsisWidth) inner
      then (subset, resolvedWidth, cache')
      else ellipsisScan e x ellipsisWidth inner rest
             (subset +:+ InlineText_toString char) w cache'
  end.

(** ** The per-line arrays (C5) *)

Lemma incr_last_length (arr : list Z) : length (incr_last arr) = length arr.
Proof.
  destruct arr as [|a arr]; [reflexivity|].
  unfold incr_last. by rewrite length_insert.
Qed.

Lemma measureBody_lineInv ctx width i word st loc b0 :
  lineInv b0 st -> lineInv b0 (fst (measureBody ctx width i word st loc)).
Proof.
  intros [Hs Hb]. unfold measureBody.
  repeat (case_match; simpl); unfold lineInv; simpl;
    rewrite ?length_app, ?incr_last_length; simpl; lia.
Qed.

Lemma measureLoop_lineInv ctx width b0 fuel :
  forall i st loc st' loc',
    lineInv b0 st ->
    measureLoop ctx width fuel i st loc = Some (st', loc') ->
    lineInv b0 st'.
Proof.
  induction fuel as [|fuel IH]; intros i st loc st' loc' Hinv Hrun; [discriminate|].
  simpl in Hrun. destruct (words st !! i) as [word|].
  - pose proof (measureBody_lineInv ctx width i word st loc b0 Hinv) as Hstep.
    destruct (measureBody ctx width i word st loc) as [st1 loc1].
    eapply IH; eauto.
  - by inversion Hrun; subst.
Qed.

Lemma measureEnter_lineInv st : lineInv (length (baselines st)) (measureEnter st).
Proof. split; simpl; lia. Qed.

(** C5, as the code has it.  After a call of the callback that returns,
    [lineSegmentNumber] is as long as [lineWidths] when the last line is not
    empty (its running width is not zero) and one longer otherwise; and when
    [baselines] is empty on entry, as it is on the first call, it is as long
    as [lineWidths] on return. *)
Theorem measure_line_arrays ctx fuel width st st' loc :
  measureCall ctx fuel width st = Some (st', loc) ->
  length (lineSegmentNumber st')
    = (length (lineWidths st') + if truthy (_currentWidth loc) then 0 else 1)%nat
  /\ (baselines st = [] -> length (baselines st') = length (lineWidths st')).
Proof.
  unfold measureCall. intros Hcall.
  destruct (measureLoop ctx width fuel 0 (measureEnter st) initLocals)
    as [[st1 loc1]|] eqn:Hloop; [|discriminate].
  apply measureLoop_lineInv with (b0 := length (baselines st)) in Hloop;
    [|apply measureEnter_lineInv].
  destruct Hloop as [Hs Hb]. unfold measureFlush in Hcall.
  destruct (truthy (_currentWidth loc1)) eqn:Hcw; inversion Hcall; subst; simpl.
  - rewrite Hcw, !length_app. simpl. split; [lia|].
    intros Hnil. rewrite Hnil in Hb. simpl in Hb. lia.
  - rewrite Hcw. split; [lia|].
    intros Hnil. rewrite Hnil in Hb. simpl in Hb. lia.
Qed.

(** The line arrays of "Hello World" measured with width 400. *)
Lemma measure_line_arrays_witness :
  exists st' loc,
    measureCall Sample.normalContext 5 400 (initStore Sample.helloWorld ∅) = Some (st', loc)
    /\ length (lineSegmentNumber st')
       = (length (lineWidths st') + if truthy (_currentWidth loc) then 0 else 1)%nat
    /\ (baselines (initStore Sample.helloWorld ∅) = [] ->
        length (baselines st') = length (lineWidths st')).
Proof.
  eexists _, _. split; [vm_compute; reflexivity|].
  apply (measure_line_arrays Sample.normalContext 5 400 (initStore Sample.helloWorld ∅)).
  vm_compute; reflexivity.
Defined.

(** C5, as it is stated, fails on a text that ends with a line feed under
    [white-space: pre-wrap]: the forced break opens a second line that
    stays empty, so [lineSegmentNumber] has two entries and [lineWidths]
    and [baselines] have one. *)
Lemma line_arrays_not_aligned :
  exists st' loc,
    measureCall Sample.preWrapContext 5 400 (initStore Sample.trailingNewline ∅)
      = Some (st', loc)
    /\ lineWidths st' = [10]
    /\ lineSegmentNumber st' = [1%Z; 1%Z]
    /\ ~ linesAligned st'.
Proof.
  eexists _, _. split; [vm_compute; reflexivity|].
  repeat split. unfold linesAligned. simpl. lia.
Qed.

(** ** The cache and the result of a call (C8) *)

Lemma cache_ok_empty e : cache_ok e ∅.
Proof. intros s q H. by rewrite lookup_empty in H. Qed.

Lemma cache_ok_insert e cache s :
  cache_ok e cache -> cache_ok e (<[s := engine_measure e s]> cache).
Proof.
  intros Hok t q. rewrite lookup_insert. case_decide; subst.
  - by intros [= <-].
  - apply Hok.
Qed.

(** With a cache that agrees with the engine, [measureWithCache] returns
    the sum of the engine's widths. *)
Lemma measureWithCache_loop_ok e segments :
  forall total cache,
    cache_ok e cache ->
    fst (measureWithCache_loop e segments total cache)
      = fold_left (fun t s => t + engine_measure e s) segments total
    /\ cache_ok e (snd (measureWithCache_loop e segments total cache)).
Proof.
  induction segments as [|s rest IH]; intros total cache Hok; simpl; [done|].
  destruct (cache !! s) as [w|] eqn:Hs.
  - rewrite (Hok _ _ Hs). by apply IH.
  - apply IH. by apply cache_ok_insert.
Qed.

Lemma measureWithCache_one e s cache :
  cache_ok e cache ->
  exists cache', measureWithCache e [s] cache = (0 + engine_measure e s, cache')
                 /\ cache_ok e cache'.
Proof.
  intros Hok. destruct (measureWithCache_loop_ok e [s] 0 cache Hok) as [Hw Hc].
  exists (snd (measureWithCache e [s] cache)). split; [|exact Hc].
  unfold measureWithCache. simpl in Hw. rewrite <- Hw. apply surjective_pairing.
Qed.

(** Case analysis on a condition that is not itself a conditional, so that
    two copies of the same code are split in step. *)
Ltac split_if :=
  match goal with
  | |- context [if ?c then _ else _] =>
      lazymatch c with
      | context [if _ then _ else _] => fail
      | _ => destruct c eqn:?
      end
  end.

(** The words and the variables of the callback after one iteration depend
    on the store only through [words]. *)
Lemma measureBody_same ctx width i word st1 st2 loc :
  sameInput (engine ctx) st1 st2 ->
  sameInput (engine ctx) (fst (measureBody ctx width i word st1 loc))
                         (fst (measureBody ctx width i word st2 loc))
  /\ snd (measureBody ctx width i word st1 loc)
     = snd (measureBody ctx width i word st2 loc).
Proof.
  intros (Hw & Hc1 & Hc2). unfold measureBody.
  set (space := if String.eqb (remainingSpace loc) "" then " " else remainingSpace loc).
  destruct (measureWithCache_one (engine ctx) space _ Hc1) as (ca1 & -> & Hca1).
  destruct (measureWithCache_one (engine ctx) space _ Hc2) as (ca2 & -> & Hca2).
  destruct (measureWithCache_one (engine ctx) (content word) _ Hc1) as (cb1 & -> & Hcb1).
  destruct (measureWithCache_one (engine ctx) (content word) _ Hc2) as (cb2 & -> & Hcb2).
  rewrite Hw. clearbody space. cbv zeta.
  repeat (split_if; cbv beta iota).
  all: split; [repeat split; assumption || reflexivity | reflexivity].
Qed.

Lemma measureLoop_same ctx width fuel :
  forall i st1 st2 loc,
    sameInput (engine ctx) st1 st2 ->
    match measureLoop ctx width fuel i st1 loc,
          measureLoop ctx width fuel i st2 loc with
    | Some (st1', loc1), Some (st2', loc2) =>
        sameInput (engine ctx) st1' st2' /\ loc1 = loc2
    | None, None => True
    | _, _ => False
    end.
Proof.
  induction fuel as [|fuel IH]; intros i st1 st2 loc Hsame; simpl; [done|].
  destruct Hsame as (Hw & Hc1 & Hc2). rewrite Hw.
  destruct (words st2 !! i) as [word|]; [|done].
  destruct (measureBody_same ctx width i word st1 st2 loc) as [Hst Hloc]; [done|].
  destruct (measureBody ctx width i word st1 loc) as [a1 l1].
  destruct (measureBody ctx width i word st2 loc) as [a2 l2].
  simpl in Hst, Hloc. subst l2. by apply IH.
Qed.

(** More fuel does not change the result of a loop that ended. *)
Lemma measureLoop_fuel_mono ctx width fuel :
  forall fuel' i st loc r,
    measureLoop ctx width fuel i st loc = Some r ->
    (fuel <= fuel')%nat ->
    measureLoop ctx width fuel' i st loc = Some r.
Proof.
  induction fuel as [|fuel IH]; intros fuel' i st loc r Hrun Hle; [discriminate|].
  destruct fuel' as [|fuel']; [lia|]. simpl in *.
  destruct (words st !! i) as [word|]; [|done].
  destruct (measureBody ctx width i word st loc) as [st1 loc1].
  apply IH; [done|lia].
Qed.

Lemma measureCall_same ctx width fuel st1 st2 :
  sameInput (engine ctx) st1 st2 ->
  match measureCall ctx fuel width st1, measureCall ctx fuel width st2 with
  | Some (st1', loc1), Some (st2', loc2) =>
      sameInput (engine ctx) st1' st2' /\ loc1 = loc2
  | None, None => True
  | _, _ => False
  end.
Proof.
  intros Hsame. unfold measureCall.
  pose proof (measureLoop_same ctx width fuel 0 (measureEnter st1) (measureEnter st2)
                initLocals Hsame) as Hloop.
  destruct (measureLoop ctx width fuel 0 (measureEnter st1) initLocals) as [[a1 l1]|],
           (measureLoop ctx width fuel 0 (measureEnter st2) initLocals) as [[a2 l2]|];
    try done.
  destruct Hloop as [Hst ->]. unfold measureFlush.
  destruct (truthy (_currentWidth l2)); [|done].
  split; [|done]. destruct Hst as (? & ? & ?). by repeat split.
Qed.

Lemma measureFunc_fuel ctx width fuel fuel' st r r' :
  measureFunc ctx fuel width st = Some r ->
  measureFunc ctx fuel' width st = Some r' ->
  r = r'.
Proof.
  unfold measureFunc, measureCall. intros H1 H2.
  destruct (measureLoop ctx width fuel 0 (measureEnter st) initLocals)
    as [[a1 l1]|] eqn:E1; [|discriminate].
  destruct (measureLoop ctx width fuel' 0 (measureEnter st) initLocals)
    as [[a2 l2]|] eqn:E2; [|discriminate].
  destruct (Nat.le_ge_cases fuel fuel') as [Hle|Hle].
  - rewrite (measureLoop_fuel_mono _ _ _ _ _ _ _ _ E1 Hle) in E2. by simplify_eq.
  - rewrite (measureLoop_fuel_mono _ _ _ _ _ _ _ _ E2 Hle) in E1. by simplify_eq.
Qed.

(** C8.  When a call with [width] returns [size] and leaves the word
    sequence as it found it, a second call with the same [width] returns
    as well, and returns the same [size]; what the first call left in the
    line arrays, the word positions and the cache has no influence. *)
Theorem measure_twice_identical ctx fuel width st size st1 :
  cache_ok (engine ctx) (wordWidthCache st) ->
  measureFunc ctx fuel width st = Some (size, st1) ->
  words st1 = words st ->
  (exists st2, measureFunc ctx fuel width st1 = Some (size, st2))
  /\ (forall fuel' size' st2',
        measureFunc ctx fuel' width st1 = Some (size', st2') -> size' = size).
Proof.
  intros Hok Hfirst Hwords.
  assert (Hret : exists st2, measureFunc ctx fuel width st1 = Some (size, st2)).
  { unfold measureFunc in *.
    assert (Hrefl : sameInput (engine ctx) st st) by done.
    pose proof (measureCall_same ctx width fuel st st Hrefl) as Hself.
    destruct (measureCall ctx fuel width st) as [[a l]|] eqn:E; [|discriminate].
    destruct Hself as [(_ & Hca & _) _].
    injection Hfirst as <- <-.
    assert (Hsame : sameInput (engine ctx) a st) by by repeat split.
    pose proof (measureCall_same ctx width fuel a st Hsame) as Hnext.
    rewrite E in Hnext.
    destruct (measureCall ctx fuel width a) as [[a' l']|]; [|done].
    destruct Hnext as [_ ->]. by exists a'. }
  split; [exact Hret|].
  intros fuel' size' st2' Hsecond. destruct Hret as [st2 Hret].
  by pose proof (measureFunc_fuel _ _ _ _ _ _ _ Hret Hsecond) as [= -> _].
Qed.

(** "Hello World" measured twice with width 80. *)
Lemma measure_twice_identical_witness :
  exists size st1,
    measureFunc Sample.normalContext 5 80 (initStore Sample.helloWorld ∅)
      = Some (size, st1)
    /\ (exists st2, measureFunc Sample.normalContext 5 80 st1 = Some (size, st2))
    /\ (forall fuel' size' st2',
          measureFunc Sample.normalContext fuel' 80 st1 = Some (size', st2') ->
          size' = size).
Proof.
  eexists _, _. split; [vm_compute; reflexivity|].
  apply (measure_twice_identical Sample.normalContext 5 80
           (initStore Sample.helloWorld ∅)).
  - apply cache_ok_empty.
  - vm_compute; reflexivity.
  - reflexivity.
Defined.

(** The hypothesis on the word sequence is needed.  In break-word mode the
    text ["x"; "abc"] measured with width 25 is split by the first call
    into ["x"; ""; "a"; "b"; "c"]; the first call returns a height of three
    lines and the second call, with the same width, a height of two. *)
Lemma measure_after_split_differs :
  exists size1 st1 size2 st2,
    measureFunc Sample.breakWordContext 10 25 (initStore (Sample.plain ["x"; "abc"]) ∅)
      = Some (size1, st1)
    /\ measureFunc Sample.breakWordContext 10 25 st1 = Some (size2, st2)
    /\ map content (words st1) = ["x"; ""; "a"; "b"; "c"]
    /\ size_height size1 = 36
    /\ size_height size2 = 24.
Proof.
  eexists _, _, _, _.
  split; [vm_compute; reflexivity|]. split; [vm_compute; reflexivity|].
  repeat split.
Qed.

(** ** Break-word and the end of the loop (C2) *)

Lemma splice1_last {A : Type} (l : list A) (x : A) (items : list A) :
  splice1 (length l) items (l ++ [x]) = l ++ items.
Proof.
  unfold splice1. rewrite take_app_length.
  replace (S (length l)) with (length (l ++ [x])) by (rewrite length_app; simpl; lia).
  by rewrite drop_all, app_nil_r.
Qed.

(** A word [g] that is a single grapheme wider than the available width,
    at the start of a line in break-word mode: every iteration replaces it
    by a placeholder and itself, and the next iteration finds it again. *)
Section Stuck.
Variables (ctx : Context) (width : Q) (g : InlineText).
Hypothesis break_word : isBreakWord ctx = true.
Hypothesis no_break : shouldKeepLinebreak ctx && String.eqb (content g) LF = false.
Hypothesis no_image : isImage ctx (content g) = false.
Hypothesis single : segmentGraphemes ctx (content g) = [content g].
Hypothesis too_wide : Qgtb (0 + engine_measure (engine ctx) (content g)) width = true.

Lemma stuck_step k st loc :
  cache_ok (engine ctx) (wordWidthCache st) ->
  _currentWidth loc = 0 ->
  words (fst (measureBody ctx width k g st loc))
    = splice1 k [{| content := ""; style := style g |}; g] (words st)
  /\ cache_ok (engine ctx) (wordWidthCache (fst (measureBody ctx width k g st loc)))
  /\ _currentWidth (snd (measureBody ctx width k g st loc)) = 0.
Proof.
  intros Hok Hcw. unfold measureBody, isCollapsedSpace.
  destruct (measureWithCache_one (engine ctx) (content g) _ Hok) as (c' & Hm & Hc').
  rewrite no_break, no_image, Hm, Hcw, break_word, too_wide, single.
  simpl. rewrite andb_false_r. simpl. destruct g; done.
Qed.

Lemma stuck_loop fuel :
  forall k st loc,
    words st = replicate k {| content := ""; style := style g |} ++ [g] ->
    cache_ok (engine ctx) (wordWidthCache st) ->
    _currentWidth loc = 0 ->
    measureLoop ctx width fuel k st loc = None.
Proof.
  induction fuel as [|fuel IH]; intros k st loc Hwords Hok Hcw; [done|].
  simpl. rewrite Hwords.
  rewrite lookup_app_r, length_replicate, Nat.sub_diag by (rewrite length_replicate; lia).
  simpl. destruct (stuck_step k st loc Hok Hcw) as (Hw & Hc & Hz).
  destruct (measureBody ctx width k g st loc) as [st1 loc1]. simpl in *.
  apply IH; [|done..].
  rewrite Hw, Hwords.
  rewrite <- (length_replicate k {| content := ""; style := style g |}) at 1.
  rewrite splice1_last, replicate_S_end, <- app_assoc. done.
Qed.

Lemma break_word_stuck fuel :
  measureFunc ctx fuel width (initStore [g] ∅) = None.
Proof.
  unfold measureFunc, measureCall.
  rewrite (stuck_loop fuel 0); [done|done| |done]. apply cache_ok_empty.
Qed.
End Stuck.

(** C2 on the code.  In break-word mode the word ["W"], 10 wide, measured
    with an available width of 5: the callback does not return, whatever
    the number of iterations it is given. *)
Theorem oversized_grapheme_never_returns :
  forall fuel,
    measureFunc Sample.breakWordContext fuel 5 (initStore [Sample.W] ∅) = None.
Proof. intros fuel. by apply break_word_stuck. Qed.

(** Without break-word the word list is not changed and the loop ends after
    one iteration for each word. *)
Lemma measureBody_words ctx width i word st loc :
  isBreakWord ctx = false ->
  words (fst (measureBody ctx width i word st loc)) = words st.
Proof.
  intros Hbw. unfold measureBody. rewrite Hbw. simpl.
  repeat (case_match; simpl); reflexivity.
Qed.

Lemma measureLoop_returns ctx width fuel :
  forall i st loc,
    isBreakWord ctx = false ->
    (length (words st) <= fuel + i)%nat ->
    exists r, measureLoop ctx width (S fuel) i st loc = Some r.
Proof.
  induction fuel as [|fuel IH]; intros i st loc Hbw Hfuel.
  - simpl in *. rewrite (lookup_ge_None_2 (words st) i) by lia. eauto.
  - cbn [measureLoop]. destruct (words st !! i) as [word|] eqn:Hi; [|eauto].
    pose proof (measureBody_words ctx width i word st loc Hbw) as Hw.
    destruct (measureBody ctx width i word st loc) as [st1 loc1]. simpl in Hw.
    apply IH; [done|]. rewrite Hw. lia.
Qed.

(** Without break-word the callback returns. *)
Lemma measureFunc_returns ctx width st :
  isBreakWord ctx = false ->
  exists r, measureFunc ctx (S (length (words st))) width st = Some r.
Proof.
  intros Hbw. unfold measureFunc, measureCall.
  destruct (measureLoop_returns ctx width (length (words st)) 0 (measureEnter st)
              initLocals Hbw) as [[st1 loc1] ->]; [simpl; lia|].
  destruct (measureFlush st1 loc1). eauto.
Qed.
(** ** What a call leaves of the previous one (C1) *)

(** [baselines] is only ever appended to. *)
Lemma measureBody_baselines ctx width i word st loc :
  exists added,
    baselines (fst (measureBody ctx width i word st loc)) = baselines st ++ added.
Proof.
  unfold measureBody.
  repeat (case_match; simpl); first [by exists [] ; rewrite app_nil_r | by eexists].
Qed.

Lemma measureLoop_baselines ctx width fuel :
  forall i st loc st' loc',
    measureLoop ctx width fuel i st loc = Some (st', loc') ->
    exists added, baselines st' = baselines st ++ added.
Proof.
  induction fuel as [|fuel IH]; intros i st loc st' loc' Hrun; [discriminate|].
  simpl in Hrun. destruct (words st !! i) as [word|].
  - destruct (measureBody_baselines ctx width i word st loc) as [a1 H1].
    destruct (measureBody ctx width i word st loc) as [st1 loc1]. simpl in H1.
    destruct (IH _ _ _ _ _ Hrun) as [a2 H2].
    exists (a1 ++ a2). by rewrite H2, H1, app_assoc.
  - inversion Hrun; subst. exists []. by rewrite app_nil_r.
Qed.

(** The baselines that earlier calls recorded stay at the front of the
    array, where the painter looks up [baselines[line]]. *)
Lemma measureFunc_keeps_baselines ctx fuel width st size st' :
  measureFunc ctx fuel width st = Some (size, st') ->
  exists added, baselines st' = baselines st ++ added.
Proof.
  unfold measureFunc, measureCall. intros Hcall.
  destruct (measureLoop ctx width fuel 0 (measureEnter st) initLocals)
    as [[st1 loc1]|] eqn:Hloop; [|discriminate].
  apply measureLoop_baselines in Hloop as [a1 H1]. simpl in H1.
  unfold measureFlush in Hcall.
  destruct (truthy (_currentWidth loc1)); inversion Hcall; subst; simpl.
  - exists (a1 ++ [currentBaselineOffset loc1]). by rewrite H1, app_assoc.
  - by exists a1.
Qed.

(** C1 on the code.  The text ["b"; "A"] is measured with width 10 (two
    lines, baselines 9 and 16) and then with width 100 (one line, whose
    baseline is 16).  After the second call [lineWidths] has the one line
    of that call, but [baselines] still starts with the entries of the
    first call: the painter reads 9 for line 0 and places both words at 9.
    When the callback is only called with width 100 the words are placed
    at 16. *)
Theorem baselines_survive_second_call :
  (exists parent st ps,
     buildTextNodes Sample.normalContext 5 Sample.twoFonts Sample.freeParent [10; 100]
       (Sample.geometry 100 100) = Returns (parent, st, ps)
     /\ lineWidths st = [20]
     /\ baselines st = [9; 16; 16]
     /\ events ps = [(0%nat, EvText "b" (Some 0) (Some 9) 10 12 None None);
                     (1%nat, EvText "A" (Some 10) (Some 9) 10 20 None None)])
  /\ (exists parent st ps,
        buildTextNodes Sample.normalContext 5 Sample.twoFonts Sample.freeParent [100]
          (Sample.geometry 100 100) = Returns (parent, st, ps)
        /\ lineWidths st = [20]
        /\ baselines st = [16]
        /\ events ps = [(0%nat, EvText "b" (Some 0) (Some 16) 10 12 None None);
                        (1%nat, EvText "A" (Some 10) (Some 16) 10 20 None None)]).
Proof.
  split; eexists _, _, _; (split; [vm_compute; reflexivity|]); repeat split.
Qed.

(** The word position of the placeholder that the break-word branch
    inserts is not written by the call that inserts it: the entry at that
    index is the one an earlier call stored for the unbroken word. *)
Lemma placeholder_position_is_stale :
  exists size1 st1 size2 st2,
    measureFunc Sample.ellipsisContext 20 400 (initStore Sample.abcdef ∅)
      = Some (size1, st1)
    /\ measureFunc Sample.ellipsisContext 20 45 st1 = Some (size2, st2)
    /\ map content (words st2) = [""; "a"; "b"; "c"; "d"; "e"; "f"]
    /\ wordPositionInLayout st1 !! 0%nat = wordPositionInLayout st2 !! 0%nat
    /\ wordPositionInLayout st2 !! 0%nat
       = Some (Pos {| pos_x := 0; pos_y := 0; pos_width := 60; pos_line := 0;
                      pos_lineIndex := 0 |}).
Proof.
  eexists _, _, _, _.
  split; [vm_compute; reflexivity|]. split; [vm_compute; reflexivity|].
  repeat split.
Qed.

(** ** Separators in the callback (C3) *)

(** The test of lines 283-291 never succeeds. *)
Lemma isCollapsedSpace_false ctx word forceBreak :
  isCollapsedSpace ctx word forceBreak = false.
Proof.
  unfold isCollapsedSpace, InlineText_index0. simpl.
  by rewrite andb_false_r.
Qed.

(** [wordPositionInLayout] after a write keeps a property that the hole
    and the written cell have. *)
Lemma array_set_Forall {A : Type} (P : A -> Prop) (hole v : A) (i : nat) (arr : list A) :
  P hole -> P v -> Forall P arr -> Forall P (array_set hole i v arr).
Proof.
  intros Hh Hv Harr. unfold array_set. destruct (i <? length arr)%nat.
  - by apply Forall_insert.
  - apply Forall_app. split; [done|]. apply Forall_app. split.
    + by apply Forall_replicate.
    + by apply Forall_singleton.
Qed.

Lemma measureBody_no_null ctx width i word st loc :
  Forall (fun slot => slot <> Null) (wordPositionInLayout st) ->
  Forall (fun slot => slot <> Null)
    (wordPositionInLayout (fst (measureBody ctx width i word st loc))).
Proof.
  intros Hno. unfold measureBody. rewrite isCollapsedSpace_false.
  repeat (case_match; simpl); try done; by apply array_set_Forall.
Qed.

Lemma measureLoop_no_null ctx width fuel :
  forall i st loc st' loc',
    Forall (fun slot => slot <> Null) (wordPositionInLayout st) ->
    measureLoop ctx width fuel i st loc = Some (st', loc') ->
    Forall (fun slot => slot <> Null) (wordPositionInLayout st').
Proof.
  induction fuel as [|fuel IH]; intros i st loc st' loc' Hno Hrun; [discriminate|].
  simpl in Hrun. destruct (words st !! i) as [word|].
  - pose proof (measureBody_no_null ctx width i word st loc Hno) as Hstep.
    destruct (measureBody ctx width i word st loc) as [st1 loc1].
    eapply IH; eauto.
  - by inversion Hrun; subst.
Qed.

(** No call of the callback stores [null] in [wordPositionInLayout]. *)
Lemma measureFunc_no_null ctx fuel width st size st' :
  Forall (fun slot => slot <> Null) (wordPositionInLayout st) ->
  measureFunc ctx fuel width st = Some (size, st') ->
  Forall (fun slot => slot <> Null) (wordPositionInLayout st').
Proof.
  unfold measureFunc, measureCall. intros Hno Hcall.
  destruct (measureLoop ctx width fuel 0 (measureEnter st) initLocals)
    as [[st1 loc1]|] eqn:Hloop; [|discriminate].
  apply measureLoop_no_null in Hloop; [|done].
  unfold measureFlush in Hcall.
  destruct (truthy (_currentWidth loc1)); inversion Hcall; subst; done.
Qed.

(** C3 on the code.  In ["a"; " "; "b"] under [white-space: normal] the
    space is laid out as a visible word: its position is a record, not
    [null], and its width is part of the line. *)
Theorem separator_is_positioned :
  exists size st,
    measureFunc Sample.normalContext 5 400 (initStore Sample.spaced ∅) = Some (size, st)
    /\ wordPositionInLayout st !! 1%nat
       = Some (Pos {| pos_x := 10; pos_y := 0; pos_width := 10; pos_line := 0;
                      pos_lineIndex := 0 |})
    /\ lineWidths st = [30].
Proof.
  eexists _, _. split; [vm_compute; reflexivity|]. by split.
Qed.

(** ** Exceptions (C4) *)

(** Under [white-space: pre] the scan throws at its first word. *)
Lemma minWidthScan_pre_throws ctx word rest cache :
  whiteSpace ctx = WsPre ->
  minWidthScan ctx (word :: rest) cache
    = Throw (TypeError "Cannot read properties of undefined (reading 'content')").
Proof.
  intros Hpre. unfold minWidthScan. simpl. unfold minWidthStep. by rewrite Hpre.
Qed.

(** C4 on the code.  With [white-space: pre] the layout of the text ["a"]
    raises a [TypeError] in the min-width scan. *)
Theorem pre_raises :
  buildTextNodes Sample.preContext 5 (Sample.plain ["a"]) Sample.freeParent [100]
    (Sample.geometry 100 100)
  = Raises (TypeError "Cannot read properties of undefined (reading 'content')").
Proof. reflexivity. Qed.

(** The painter raises as well when glyph outlines are embedded and
    [graphemeImages] is absent: the merge condition reads a property of
    it. *)
Lemma embed_without_images_raises :
  buildTextNodes Sample.embedNoImagesContext 5 Sample.ab Sample.freeParent [100]
    (Sample.geometry 100 100)
  = Raises (TypeError "Cannot read properties of undefined").
Proof. vm_compute. reflexivity. Qed.

(** ** The min-width of the parent (C6) *)

Lemma Qgtb_lt (a b : Q) : Qgtb a b = true <-> b < a.
Proof.
  unfold Qgtb. rewrite negb_true_iff. split.
  - intros H. apply Qnot_le_lt. intros Hle. apply Qle_bool_iff in Hle. congruence.
  - intros H. destruct (Qle_bool a b) eqn:E; [|done].
    apply Qle_bool_iff in E. exfalso. by apply (Qlt_not_le _ _ H).
Qed.

(** The guard of lines 234-238 in words. *)
Lemma minWidthGuard_spec minW p :
  minWidthGuard minW p = true <-> writesMinWidth minW p.
Proof.
  unfold minWidthGuard, writesMinWidth, isNaN, num_gt.
  destruct (yg_value (getWidth p)) as [w|]; simpl; [split; [done|by intros [? _]]|].
  destruct (yg_value (getMinWidth p)) as [m|]; simpl; [|split; auto].
  rewrite andb_true_iff, Z.eqb_eq, Qgtb_lt. split.
  - intros [Hu Hm]. split; [done|]. right. split; [done|]. by exists m.
  - intros [_ [?|[Hu (m' & [= <-] & Hm)]]]; done.
Qed.

(** C6, as the code has it.  The computed min-width, clamped to a
    max-width in points, is written to the parent when no width is set and
    either no min-width is inherited or the inherited min-width is a length
    in points greater than the computed value; in every other case the
    parent is left as it is. *)
Theorem min_width_applied minW p :
  (writesMinWidth minW p ->
     applyMinWidth minW p = setMinWidth (clampToMaxWidth minW p) p)
  /\ (~ writesMinWidth minW p -> applyMinWidth minW p = p).
Proof.
  unfold applyMinWidth. split; intros H.
  - apply minWidthGuard_spec in H. by rewrite H.
  - destruct (minWidthGuard minW p) eqn:E; [|done].
    exfalso. apply H. by apply minWidthGuard_spec.
Qed.

(** C6, as it is stated, fails in both directions.  The computed min-width
    of "Hello World" is 50.  With an inherited min-width of 500 points the
    stated condition does not hold, and the parent is overwritten with 50;
    with an inherited min-width of 20 points the stated condition holds,
    and the parent is left at 20. *)
Lemma min_width_claim_fails :
  (exists cache, minWidthScan Sample.normalContext Sample.helloWorld ∅ = Ok (50, cache))
  /\ claimedMinWidthGuard 50 (Sample.parentMin 500) = false
  /\ applyMinWidth 50 (Sample.parentMin 500) = Sample.parentMin 50
  /\ applyMinWidth 50 (Sample.parentMin 500) <> Sample.parentMin 500
  /\ claimedMinWidthGuard 50 (Sample.parentMin 20) = true
  /\ applyMinWidth 50 (Sample.parentMin 20) = Sample.parentMin 20.
Proof.
  split; [eexists; vm_compute; reflexivity|].
  repeat split. vm_compute. discriminate.
Qed.

(** ** Merged outlines (C7) *)

(** C7 on the code.  Three adjacent words ["a"; "b"; "c"] on one line with
    the same style, outlines embedded: one outline is requested, at the
    left offset of the first word, but its text is ["[object Object]bc"]. *)
Theorem merged_run_of_three :
  exists parent st ps,
    buildTextNodes Sample.embedContext 5 Sample.abc Sample.freeParent [100]
      (Sample.geometry 100 100) = Returns (parent, st, ps)
    /\ events ps = [(2%nat, EvGetSVG "[object Object]bc" (Some 0) (Some 9))].
Proof.
  eexists _, _, _. split; [vm_compute; reflexivity|]. reflexivity.
Qed.

(** Two words are merged into the concatenation of their contents. *)
Lemma merged_run_of_two :
  exists parent st ps,
    buildTextNodes Sample.embedContext 5 Sample.ab Sample.freeParent [100]
      (Sample.geometry 100 100) = Returns (parent, st, ps)
    /\ events ps = [(1%nat, EvGetSVG "ab" (Some 0) (Some 9))].
Proof.
  eexists _, _, _. split; [vm_compute; reflexivity|]. reflexivity.
Qed.

(** ** Justification (C9) *)

Lemma inject_Z_nonzero (z : Z) : (z <> 0)%Z -> Qeq_bool (inject_Z z) 0 = false.
Proof.
  intros Hz. unfold Qeq_bool, inject_Z. simpl. apply Z.eqb_neq. lia.
Qed.

(** C9.  With [text-align: justify] and more than one line: a word on the
    last line (or on an empty line after it) keeps its left offset; a word
    on an earlier line is shifted by the gutter of its line times its
    [lineIndex], where the gutter is [remainingWidth / (segments - 1)] and 0
    when the line has at most one segment. *)
Theorem justify_offsets ctx g st layout :
  textAlign ctx = TaJustify ->
  (1 < length (lineWidths st))%nat ->
  ((length (lineWidths st) - 1 <= pos_line layout)%nat ->
     alignedOffset ctx g st layout = (Some (pos_x layout), false))
  /\ (forall lineWidth segments,
        (pos_line layout < length (lineWidths st) - 1)%nat ->
        lineWidths st !! pos_line layout = Some lineWidth ->
        lineSegmentNumber st !! pos_line layout = Some segments ->
        alignedOffset ctx g st layout
          = (Some (pos_x layout
                   + gutter (containerWidth g - lineWidth) segments
                     * inject_Z (pos_lineIndex layout)), true)
        /\ ((segments <= 1)%Z -> gutter (containerWidth g - lineWidth) segments = 0)).
Proof.
  intros Halign Hmulti. unfold alignedOffset. rewrite Halign.
  apply Nat.ltb_lt in Hmulti. rewrite Hmulti. split.
  - intros Hlast. by rewrite (proj2 (Nat.ltb_ge _ _) Hlast).
  - intros lineWidth segments Hline Hlw Hseg.
    rewrite (proj2 (Nat.ltb_lt _ _) Hline), Hlw, Hseg. unfold gutter. simpl.
    destruct (1 <? segments)%Z eqn:Hsegs.
    + apply Z.ltb_lt in Hsegs. split; [|lia].
      simpl. rewrite inject_Z_nonzero by lia. reflexivity.
    + by split.
Qed.

(** The word ["bb"] on the first of the two lines of a justified text. *)
Lemma justify_offsets_witness :
  textAlign Sample.justifyContext = TaJustify
  /\ (1 < length (lineWidths (Sample.measured Sample.justifyContext 10 65
                                Sample.fourWords)))%nat
  /\ ((length (lineWidths (Sample.measured Sample.justifyContext 10 65
                             Sample.fourWords)) - 1
       <= pos_line {| pos_x := 30; pos_y := 0; pos_width := 20; pos_line := 0;
                      pos_lineIndex := 0 |})%nat ->
      alignedOffset Sample.justifyContext (Sample.geometry 65 65)
        (Sample.measured Sample.justifyContext 10 65 Sample.fourWords)
        {| pos_x := 30; pos_y := 0; pos_width := 20; pos_line := 0; pos_lineIndex := 0 |}
      = (Some 30, false))
  /\ (forall lineWidth segments,
        (0 < length (lineWidths (Sample.measured Sample.justifyContext 10 65
                                   Sample.fourWords)) - 1)%nat ->
        lineWidths (Sample.measured Sample.justifyContext 10 65 Sample.fourWords)
          !! 0%nat = Some lineWidth ->
        lineSegmentNumber (Sample.measured Sample.justifyContext 10 65 Sample.fourWords)
          !! 0%nat = Some segments ->
        alignedOffset Sample.justifyContext (Sample.geometry 65 65)
          (Sample.measured Sample.justifyContext 10 65 Sample.fourWords)
          {| pos_x := 30; pos_y := 0; pos_width := 20; pos_line := 0; pos_lineIndex := 0 |}
        = (Some (30 + gutter (65 - lineWidth) segments * inject_Z 0), true)
        /\ ((segments <= 1)%Z -> gutter (65 - lineWidth) segments = 0)).
Proof.
  split; [reflexivity|]. split; [vm_compute; lia|].
  apply (justify_offsets Sample.justifyContext (Sample.geometry 65 65)
           (Sample.measured Sample.justifyContext 10 65 Sample.fourWords)
           {| pos_x := 30; pos_y := 0; pos_width := 20; pos_line := 0;
              pos_lineIndex := 0 |}).
  - reflexivity.
  - vm_compute; lia.
Defined.

(** A line of width 30 with three segments in a container of width 50: the
    gutter is 10, and the word with [lineIndex] 1 moves from 10 to 20; the
    word of the last line stays at 0. *)
Lemma justified_three_segments :
  (exists q,
     alignedOffset Sample.justifyContext (Sample.geometry 50 50) Sample.threeSegments
       {| pos_x := 10; pos_y := 0; pos_width := 10; pos_line := 0; pos_lineIndex := 1 |}
     = (Some q, true) /\ q == 20)
  /\ alignedOffset Sample.justifyContext (Sample.geometry 50 50) Sample.threeSegments
       {| pos_x := 0; pos_y := 12; pos_width := 10; pos_line := 1; pos_lineIndex := 0 |}
     = (Some 0, false).
Proof.
  split; [|reflexivity]. eexists. split; [vm_compute; reflexivity|]. reflexivity.
Qed.

(** When outlines are not embedded, the text element of a word is placed
    at the aligned offset. *)
Lemma paintWord_text_offset ctx g st ellipsisWidth spaceWidth i ps word layout :
  embedFont ctx = false ->
  words st !! i = Some word ->
  wordPositionInLayout st !! i = Some (Pos layout) ->
  Z.of_nat (pos_line layout) <> skippedLine ps ->
  exists ps' text at_top height,
    paintWord ctx g st ellipsisWidth spaceWidth i ps = Ok ps'
    /\ last (events ps')
       = Some (i, EvText text
                    (num_add (Some (left g)) (fst (alignedOffset ctx g st layout)))
                    at_top (pos_width layout) height
                    (imageOf ctx (content word)) (style word)).
Proof.
  intros Hembed Hword Hpos Hline. unfold paintWord. rewrite Hword, Hpos, Hembed.
  rewrite (proj2 (Z.eqb_neq _ _) Hline).
  destruct (alignedOffset ctx g st layout) as [leftOffset extended].
  destruct (truncate ctx g st ellipsisWidth spaceWidth word layout (paintCache ps))
    as [[[subset resolved]|] cache']; simpl;
    destruct (truthy_str (imageOf ctx (content word))); simpl;
    eexists _, _, _, _; (split; [reflexivity|]); simpl;
    rewrite app_assoc, last_snoc; reflexivity.
Qed.

(** ** Ellipsis (C10) *)

Lemma append_assoc (a b c : string) : (a +:+ b) +:+ c = a +:+ (b +:+ c).
Proof.
  induction a as [|ch a IH]; [reflexivity|].
  change (String ch ((a +:+ b) +:+ c) = String ch (a +:+ (b +:+ c))). by f_equal.
Qed.

Lemma append_nil_r (a : string) : a +:+ "" = a.
Proof.
  induction a as [|ch a IH]; [reflexivity|].
  change (String ch (a +:+ "") = String ch a). by f_equal.
Qed.

Lemma append_nonempty (a b : string) : a <> "" -> a +:+ b <> "".
Proof. by destruct a. Qed.

Lemma eqb_nonempty (a : string) : a <> "" -> String.eqb a "" = false.
Proof. by destruct a. Qed.

(** The scan of the graphemes once the kept prefix is not empty: [k] more
    graphemes are kept, and if any is, the prefix with the ellipsis glyph
    fits into the content box. *)
Lemma ellipsisLoop_fits e x ellipsisWidth inner chars :
  forall subset resolvedWidth cache,
    cache_ok e cache ->
    subset <> "" ->
    exists k cache',
      ellipsisLoop e x ellipsisWidth inner chars subset resolvedWidth cache
        = (subset +:+ join (take k chars),
           (if (k =? 0)%nat then resolvedWidth
            else x + (0 + engine_measure e (subset +:+ join (take k chars)))),
           cache')
      /\ cache_ok e cache'
      /\ ((k =? 0)%nat = false ->
          x + (0 + engine_measure e (subset +:+ join (take k chars)))
            + ellipsisWidth <= inner).
Proof.
  induction chars as [|char rest IH]; intros subset resolvedWidth cache Hok Hne.
  - exists 0%nat, cache. simpl. by rewrite append_nil_r.
  - simpl. destruct (measureWithCache_one e (subset +:+ char) cache Hok) as (c1 & -> & Hc1).
    rewrite (eqb_nonempty _ Hne). simpl.
    destruct (Qgtb (x + (0 + engine_measure e (subset +:+ char)) + ellipsisWidth) inner)
      eqn:Hgt.
    + exists 0%nat, c1. simpl. by rewrite append_nil_r.
    + destruct (IH (subset +:+ char) (x + (0 + engine_measure e (subset +:+ char))) c1 Hc1
                  (append_nonempty _ _ Hne)) as (k & c2 & Hrun & Hc2 & Hfit).
      exists (S k), c2.
      assert (Hcat : subset +:+ join (take (S k) (char :: rest))
                     = (subset +:+ char) +:+ join (take k rest))
        by (unfold join; simpl; symmetry; apply append_assoc).
      rewrite Hcat. split; [|split; [done|]].
      * rewrite Hrun. destruct k; simpl; [|done]. by rewrite append_nil_r.
      * intros _. destruct k; simpl.
        -- rewrite append_nil_r. unfold Qgtb in Hgt.
           apply negb_false_iff, Qle_bool_iff in Hgt. exact Hgt.
        -- by apply Hfit.
Qed.

(** A word with at least one grapheme keeps its first grapheme when it is
    truncated; the recorded width is that of the kept prefix, and the
    prefix fits with the ellipsis glyph unless it is that single
    grapheme. *)
Lemma ellipsisLoop_keeps_first e x ellipsisWidth inner char rest cache :
  cache_ok e cache ->
  char <> "" ->
  exists k cache',
    ellipsisLoop e x ellipsisWidth inner (char :: rest) "" 0 cache
      = (char +:+ join (take k rest),
         x + (0 + engine_measure e (char +:+ join (take k rest))), cache')
    /\ ((k =? 0)%nat = false ->
        x + (0 + engine_measure e (char +:+ join (take k rest))) + ellipsisWidth <= inner).
Proof.
  intros Hok Hne. simpl. change ("" +:+ char) with char.
  destruct (measureWithCache_one e char cache Hok) as (c1 & -> & Hc1).
  destruct (ellipsisLoop_fits e x ellipsisWidth inner rest char
              (x + (0 + engine_measure e char)) c1 Hc1 Hne) as (k & c2 & -> & _ & Hfit).
  exists k, c2. split; [|done].
  destruct k; simpl; [|done]. by rewrite append_nil_r.
Qed.

(** A word without graphemes keeps nothing. *)
Lemma ellipsisLoop_empty e x ellipsisWidth inner cache :
  ellipsisLoop e x ellipsisWidth inner [] "" 0 cache = ("", 0, cache).
Proof. reflexivity. Qed.

(** A word on the skipped line is not painted. *)
Lemma paintWord_skipped ctx g st ellipsisWidth spaceWidth i ps layout :
  wordPositionInLayout st !! i = Some (Pos layout) ->
  Z.of_nat (pos_line layout) = skippedLine ps ->
  paintWord ctx g st ellipsisWidth spaceWidth i ps = Ok ps.
Proof.
  intros Hpos Hline. unfold paintWord. rewrite Hpos.
  destruct (words st !! i); [|done].
  by rewrite (proj2 (Z.eqb_eq _ _) Hline).
Qed.

(** C10 on the code.  The word ["abcdef"], 60 wide, with [word-break:
    break-word], [white-space: nowrap] and [text-overflow: ellipsis] in a
    content box of width 45.  The callback is called with width 400 and
    then with width 45; the second call splits the word and leaves the
    placeholder at index 0 with the position of the unbroken word.  The
    painter truncates the placeholder: the only text it emits is the
    ellipsis glyph, with no grapheme of the text before it. *)
Theorem ellipsis_without_grapheme :
  exists parent st ps,
    buildTextNodes Sample.ellipsisContext 20 Sample.abcdef Sample.freeParent [400; 45]
      (Sample.geometry 45 45) = Returns (parent, st, ps)
    /\ map content (words st) = [""; "a"; "b"; "c"; "d"; "e"; "f"]
    /\ lineWidths st = [60]
    /\ events ps = [(0%nat, EvText ellipsis (Some 0) (Some 9) 60 12 None None)].
Proof.
  eexists _, _, _. split; [vm_compute; reflexivity|]. repeat split.
Qed.

(** Without break-word the same text is truncated to ["abc…"]. *)
Lemma ellipsis_keeps_prefix :
  exists parent st ps,
    buildTextNodes (Sample.context WsNowrap false TaLeft true false (Some ∅)) 20
      Sample.abcdef Sample.freeParent [400; 45] (Sample.geometry 45 45)
      = Returns (parent, st, ps)
    /\ events ps = [(0%nat, EvText ("abc" +:+ ellipsis) (Some 0) (Some 9) 60 12 None None)].
Proof.
  eexists _, _, _. split; [vm_compute; reflexivity|]. reflexivity.
Qed.

(** * Further properties of the code *)

(** ** The width cache *)

Lemma measureWithCache_loop_lookup e segments :
  forall total cache,
    cache_ok e cache ->
    (forall s, s ∈ segments ->
       snd (measureWithCache_loop e segments total cache) !! s = Some (engine_measure e s))
    /\ (forall s q, cache !! s = Some q ->
          snd (measureWithCache_loop e segments total cache) !! s = Some q).
Proof.
  induction segments as [|s0 rest IH]; intros total cache Hok; simpl.
  - split; [intros s Hs; by apply elem_of_nil in Hs|done].
  - destruct (cache !! s0) as [w|] eqn:Hs0.
    + destruct (IH (total + w) cache Hok) as [Hin Hkeep]. split; [|done].
      intros s [->|Hs]%elem_of_cons; [|by apply Hin].
      rewrite (Hkeep _ _ Hs0). f_equal. by apply Hok.
    + destruct (IH (total + engine_measure e s0) (<[s0:=engine_measure e s0]> cache)
                  (cache_ok_insert e cache s0 Hok)) as [Hin Hkeep].
      split.
      * intros s [->|Hs]%elem_of_cons; [|by apply Hin].
        apply Hkeep. by rewrite lookup_insert_eq.
      * intros s q Hs. apply Hkeep.
        rewrite lookup_insert_ne; [done|]. intros ->. congruence.
Qed.

(** X1.  The cache is transparent: with a cache that agrees with the engine,
    [measureWithCache] returns the sum of the engine's widths of the
    segments; afterwards every segment is cached with the engine's width,
    nothing that was cached is lost or changed, and the cache still agrees
    with the engine. *)
Theorem measureWithCache_sum e segments cache :
  cache_ok e cache ->
  fst (measureWithCache e segments cache)
    = fold_left (fun total s => total + engine_measure e s) segments 0
  /\ cache_ok e (snd (measureWithCache e segments cache))
  /\ (forall s, s ∈ segments ->
        snd (measureWithCache e segments cache) !! s = Some (engine_measure e s))
  /\ (forall s q, cache !! s = Some q ->
        snd (measureWithCache e segments cache) !! s = Some q).
Proof.
  intros Hok. unfold measureWithCache.
  destruct (measureWithCache_loop_ok e segments 0 cache Hok) as [Hsum Hok'].
  destruct (measureWithCache_loop_lookup e segments 0 cache Hok) as [Hin Hkeep].
  done.
Qed.

(** The segments "ab", "c", "ab" measured with an empty cache. *)
Lemma measureWithCache_sum_witness :
  fst (measureWithCache Sample.font ["ab"; "c"; "ab"] ∅)
    = fold_left (fun total s => total + engine_measure Sample.font s) ["ab"; "c"; "ab"] 0
  /\ cache_ok Sample.font (snd (measureWithCache Sample.font ["ab"; "c"; "ab"] ∅))
  /\ (forall s, s ∈ ["ab"; "c"; "ab"] ->
        snd (measureWithCache Sample.font ["ab"; "c"; "ab"] ∅) !! s
        = Some (engine_measure Sample.font s))
  /\ (forall s q, (∅ : gmap string Q) !! s = Some q ->
        snd (measureWithCache Sample.font ["ab"; "c"; "ab"] ∅) !! s = Some q).
Proof.
  apply (measureWithCache_sum Sample.font ["ab"; "c"; "ab"] ∅).
  intros s q H. rewrite lookup_empty in H. discriminate.
Defined.

(** ** Styles *)

(** X2.  [areStylesEqual] is an equivalence on optional styles. *)
Theorem areStylesEqual_equivalence :
  (forall a, areStylesEqual a a = true)
  /\ (forall a b, areStylesEqual a b = areStylesEqual b a)
  /\ (forall a b c, areStylesEqual a b = true -> areStylesEqual b c = true ->
                    areStylesEqual a c = true).
Proof.
  split; [|split].
  - intros [[[ca|]]|]; simpl; [apply String.eqb_refl|done|done].
  - intros [[[ca|]]|] [[[cb|]]|]; simpl; try done. apply String.eqb_sym.
  - intros [[[ca|]]|] [[[cb|]]|] [[[cc|]]|]; simpl; try done.
    intros ->%String.eqb_eq ->%String.eqb_eq. apply String.eqb_refl.
Qed.
(** ** Words *)

Lemma join_app (l1 l2 : list string) : join (l1 ++ l2) = join l1 +:+ join l2.
Proof.
  induction l1 as [|s l1 IH]; [reflexivity|].
  change (s +:+ join (l1 ++ l2) = (s +:+ join l1) +:+ join l2).
  by rewrite IH, append_assoc.
Qed.

(** X3.  Segmentation loses no text and keeps the styles: when the segmenter
    cuts a string into pieces that concatenate to it, the contents of the
    words concatenate to the contents of the runs, and every word has the
    style of a run. *)
Theorem buildWords_text segment contents :
  (forall s, join (segment s) = s) ->
  join (map content (buildWords segment contents)) = join (map content contents)
  /\ (forall word, word ∈ buildWords segment contents ->
        exists c, c ∈ contents /\ style word = style c
                  /\ content word ∈ segment (content c)).
Proof.
  intros Hseg. unfold buildWords. split.
  - induction contents as [|c rest IH]; [reflexivity|].
    simpl. rewrite map_app, join_app, IH, map_map. simpl.
    rewrite map_id. rewrite Hseg. reflexivity.
  - intros word. induction contents as [|c rest IH]; simpl.
    + intros Hword. by apply elem_of_nil in Hword.
    + intros [Hword|Hword]%elem_of_app.
      * apply list_elem_of_fmap in Hword as (s & -> & Hs).
        exists c. split; [by left|by split].
      * destruct (IH Hword) as (c' & Hc' & Hstyle & Hcontent).
        exists c'. split; [by right|by split].
Qed.

Lemma chars_join (s : string) : join (Sample.chars s) = s.
Proof.
  induction s as [|c s IH]; [reflexivity|].
  change (String c (join (Sample.chars s)) = String c s). by rewrite IH.
Qed.

(** Two runs cut into characters. *)
Lemma buildWords_text_witness :
  join (map content
         (buildWords Sample.chars
            [{| content := "ab"; style := None |};
             {| content := "c"; style := Some {| color := Some "red" |} |}]))
  = join (map content
            [{| content := "ab"; style := None |};
             {| content := "c"; style := Some {| color := Some "red" |} |}])
  /\ (forall word,
        word ∈ buildWords Sample.chars
                 [{| content := "ab"; style := None |};
                  {| content := "c"; style := Some {| color := Some "red" |} |}] ->
        exists c,
          c ∈ [{| content := "ab"; style := None |};
               {| content := "c"; style := Some {| color := Some "red" |} |}]
          /\ style word = style c
          /\ content word ∈ Sample.chars (content c)).
Proof.
  apply (buildWords_text Sample.chars). exact chars_join.
Defined.

(** ** The min-width scan *)

Lemma minWidthStep_ok ctx word s cache :
  whiteSpace ctx <> WsPre ->
  exists r, minWidthStep ctx word s cache = Ok r.
Proof.
  intros Hpre. unfold minWidthStep.
  destruct (whiteSpace ctx) eqn:Hws; [| | done | |]; simpl;
    repeat (case_match; simpl); eauto.
Qed.

Lemma minWidthLoop_ok ctx ws :
  forall s cache,
    whiteSpace ctx <> WsPre ->
    exists r, minWidthLoop ctx ws s cache = Ok r.
Proof.
  induction ws as [|word rest IH]; intros s cache Hpre; simpl; [eauto|].
  destruct (minWidthStep_ok ctx word s cache Hpre) as [r ->]. simpl.
  by apply IH.
Qed.

(** X4.  The scan raises exactly when [white-space] is [pre] and there is at
    least one word. *)
Theorem minWidthScan_raises_iff ctx ws cache :
  (exists err, minWidthScan ctx ws cache = Throw err)
  <-> whiteSpace ctx = WsPre /\ ws <> [].
Proof.
  split.
  - intros [err Hthrow].
    assert (Hcases : whiteSpace ctx = WsPre \/ whiteSpace ctx <> WsPre)
      by (destruct (whiteSpace ctx); auto).
    destruct Hcases as [Hpre|Hpre].
    + split; [done|]. intros ->. unfold minWidthScan in Hthrow. simpl in Hthrow.
      destruct (measureWithCache (engine ctx) [] cache). discriminate.
    + exfalso. unfold minWidthScan in Hthrow.
      destruct (minWidthLoop_ok ctx ws
                  {| minWidth := 0; remainingSegment := []; extraWidth := 0 |} cache Hpre)
        as [r Hr].
      rewrite Hr in Hthrow. simpl in Hthrow.
      destruct (measureWithCache (engine ctx) (remainingSegment r.1) r.2). discriminate.
  - intros [Hpre Hne]. destruct ws as [|word rest]; [done|].
    eexists. by apply minWidthScan_pre_throws.
Qed.
(** ** The min-width of the parent *)

Lemma Qgtb_false (a b : Q) : Qgtb a b = false <-> a <= b.
Proof.
  unfold Qgtb. rewrite negb_false_iff. apply Qle_bool_iff.
Qed.

Lemma Math_min_le_l (a b : Q) : Math_min a b <= a.
Proof.
  unfold Math_min. destruct (Qle_bool a b) eqn:E; [apply Qle_refl|].
  apply Qlt_le_weak, Qgtb_lt. unfold Qgtb. by rewrite E.
Qed.

Lemma Math_min_le_r (a b : Q) : Math_min a b <= b.
Proof.
  unfold Math_min. destruct (Qle_bool a b) eqn:E; [by apply Qle_bool_iff|apply Qle_refl].
Qed.

Lemma clampToMaxWidth_le (minW : Q) (p : Parent) : clampToMaxWidth minW p <= minW.
Proof.
  unfold clampToMaxWidth. destruct (yg_value (getMaxWidth p)); [|apply Qle_refl].
  destruct (yg_unit (getMaxWidth p) =? 1)%Z; [apply Math_min_le_l|apply Qle_refl].
Qed.

Lemma applyMinWidth_written minW p :
  writesMinWidth minW p ->
  applyMinWidth minW p = setMinWidth (clampToMaxWidth minW p) p.
Proof.
  intros H. apply minWidthGuard_spec in H. unfold applyMinWidth. by rewrite H.
Qed.

Lemma applyMinWidth_kept minW p :
  ~ writesMinWidth minW p -> applyMinWidth minW p = p.
Proof.
  intros H. unfold applyMinWidth. destruct (minWidthGuard minW p) eqn:E; [|done].
  exfalso. apply H. by apply minWidthGuard_spec.
Qed.

(** X5.  The comment of line 239: the min-width that is written is not larger
    than a max-width in points, and not larger than the computed value. *)
Theorem min_width_never_exceeds_max minW p mx :
  yg_unit (getMaxWidth p) = 1%Z ->
  yg_value (getMaxWidth p) = Some mx ->
  writesMinWidth minW p ->
  exists w, getMinWidth (applyMinWidth minW p) = {| yg_unit := 1; yg_value := Some w |}
            /\ w <= mx /\ w <= minW.
Proof.
  intros Hunit Hmax Hwrite.
  rewrite (applyMinWidth_written minW p Hwrite). exists (clampToMaxWidth minW p). split; [reflexivity|].
  split; [|apply clampToMaxWidth_le].
  unfold clampToMaxWidth. rewrite Hmax, Hunit. simpl. apply Math_min_le_r.
Qed.

(** A parent with two min-widths in points. *)
Lemma min_width_never_exceeds_max_witness :
  yg_unit (getMaxWidth {| getWidth := Sample.autoLength;
                          getMinWidth := Sample.points 500;
                          getMaxWidth := Sample.points 30 |}) = 1%Z
  /\ yg_value (getMaxWidth {| getWidth := Sample.autoLength;
                              getMinWidth := Sample.points 500;
                              getMaxWidth := Sample.points 30 |}) = Some 30
  /\ writesMinWidth 50 {| getWidth := Sample.autoLength;
                          getMinWidth := Sample.points 500;
                          getMaxWidth := Sample.points 30 |}
  /\ exists w,
       getMinWidth (applyMinWidth 50 {| getWidth := Sample.autoLength;
                                        getMinWidth := Sample.points 500;
                                        getMaxWidth := Sample.points 30 |})
       = {| yg_unit := 1; yg_value := Some w |}
       /\ w <= 30 /\ w <= 50.
Proof.
  assert (Hwrite : writesMinWidth 50 {| getWidth := Sample.autoLength;
                                        getMinWidth := Sample.points 500;
                                        getMaxWidth := Sample.points 30 |}).
  { split; [reflexivity|]. right. split; [reflexivity|].
    exists 500. split; [reflexivity|]. reflexivity. }
  split; [reflexivity|]. split; [reflexivity|]. split; [exact Hwrite|].
  apply (min_width_never_exceeds_max 50
           {| getWidth := Sample.autoLength; getMinWidth := Sample.points 500;
              getMaxWidth := Sample.points 30 |} 30); [reflexivity|reflexivity|exact Hwrite].
Defined.

(** X6.  Two texts under one parent that has neither width nor min-width: after
    both scans the min-width of the parent is the smaller of the two values
    that the texts would write alone; in particular a second scan of the
    same text changes nothing. *)
Theorem min_width_of_two_texts m1 m2 p :
  yg_value (getWidth p) = None ->
  yg_value (getMinWidth p) = None ->
  getMinWidth (applyMinWidth m2 (applyMinWidth m1 p))
    = {| yg_unit := 1;
         yg_value := Some (Math_min (clampToMaxWidth m1 p) (clampToMaxWidth m2 p)) |}.
Proof.
  intros Hwidth Hmin.
  assert (H1 : writesMinWidth m1 p) by (split; [done|by left]).
  rewrite (applyMinWidth_written m1 p H1).
  set (w1 := clampToMaxWidth m1 p).
  assert (Hclamp : clampToMaxWidth m2 (setMinWidth w1 p) = clampToMaxWidth m2 p)
    by reflexivity.
  destruct (Qgtb w1 m2) eqn:Hgt.
  - assert (H2 : writesMinWidth m2 (setMinWidth w1 p)).
    { split; [done|]. right. split; [reflexivity|]. exists w1. split; [reflexivity|].
      by apply Qgtb_lt. }
    rewrite (applyMinWidth_written m2 _ H2), Hclamp. simpl. do 2 f_equal.
    apply Qgtb_lt in Hgt.
    assert (Hm2 : clampToMaxWidth m2 p = m2).
    { unfold clampToMaxWidth. subst w1. unfold clampToMaxWidth in Hgt.
      destruct (yg_value (getMaxWidth p)) as [mx|]; [|done].
      destruct (yg_unit (getMaxWidth p) =? 1)%Z; [|done].
      unfold Math_min at 1. 
      assert (Hle : m2 <= mx).
      { apply Qlt_le_weak. eapply Qlt_le_trans; [exact Hgt|apply Math_min_le_r]. }
      apply Qle_bool_iff in Hle. by rewrite Hle. }
    rewrite Hm2. unfold Math_min.
    destruct (Qle_bool w1 m2) eqn:Hle; [|done].
    apply Qle_bool_iff in Hle. exfalso. by apply (Qlt_not_le _ _ Hgt).
  - assert (H2 : ~ writesMinWidth m2 (setMinWidth w1 p)).
    { intros [_ [Hnone|(_ & m & [= <-] & Hlt)]]; [done|].
      apply Qgtb_lt in Hlt. congruence. }
    rewrite (applyMinWidth_kept m2 _ H2). simpl. do 2 f_equal.
    apply Qgtb_false in Hgt.
    assert (Hle : w1 <= clampToMaxWidth m2 p).
    { unfold clampToMaxWidth. subst w1. unfold clampToMaxWidth in *.
      destruct (yg_value (getMaxWidth p)) as [mx|]; [|done].
      destruct (yg_unit (getMaxWidth p) =? 1)%Z; [|done].
      unfold Math_min at 2. destruct (Qle_bool m2 mx); [done|apply Math_min_le_r]. }
    unfold Math_min. apply Qle_bool_iff in Hle. by rewrite Hle.
Qed.

(** "Hello" and "Hi" under a free parent. *)
Lemma min_width_of_two_texts_witness :
  yg_value (getWidth Sample.freeParent) = None
  /\ yg_value (getMinWidth Sample.freeParent) = None
  /\ getMinWidth (applyMinWidth 20 (applyMinWidth 50 Sample.freeParent))
     = {| yg_unit := 1;
          yg_value := Some (Math_min (clampToMaxWidth 50 Sample.freeParent)
                                     (clampToMaxWidth 20 Sample.freeParent)) |}.
Proof.
  split; [reflexivity|]. split; [reflexivity|].
  apply (min_width_of_two_texts 50 20 Sample.freeParent); reflexivity.
Defined.
(** ** Invariants of the callback *)

(** A property of the index, the store and the variables that every
    iteration keeps holds when the loop ends. *)
Lemma measureLoop_invariant ctx width (I : nat -> Store -> Locals -> Prop) :
  (forall i word st loc,
     words st !! i = Some word -> I i st loc ->
     I (S i) (measureBody ctx width i word st loc).1 (measureBody ctx width i word st loc).2) ->
  forall fuel i st loc st' loc',
    I i st loc ->
    measureLoop ctx width fuel i st loc = Some (st', loc') ->
    exists n, I n st' loc' /\ (length (words st') <= n)%nat.
Proof.
  intros Hstep. induction fuel as [|fuel IH]; intros i st loc st' loc' Hinv Hrun;
    [discriminate|].
  simpl in Hrun. destruct (words st !! i) as [word|] eqn:Hi.
  - pose proof (Hstep i word st loc Hi Hinv) as Hnext.
    destruct (measureBody ctx width i word st loc) as [st1 loc1].
    by apply (IH (S i) st1 loc1).
  - inversion Hrun; subst. exists i. split; [done|]. by apply lookup_ge_None_1.
Qed.

Lemma Math_max_ge_l (a b : Q) : a <= Math_max a b.
Proof.
  unfold Math_max. destruct (Qle_bool a b) eqn:E; [by apply Qle_bool_iff|apply Qle_refl].
Qed.

Lemma Math_max_ge_r (a b : Q) : b <= Math_max a b.
Proof.
  unfold Math_max. destruct (Qle_bool a b) eqn:E; [apply Qle_refl|].
  apply Qlt_le_weak, Qgtb_lt. unfold Qgtb. by rewrite E.
Qed.

Lemma Forall_Qle_weaken (l : list Q) (a b : Q) :
  a <= b -> Forall (fun q => q <= a) l -> Forall (fun q => q <= b) l.
Proof.
  intros Hab Hl. eapply Forall_impl; [exact Hl|].
  intros q Hq. by apply (Qle_trans _ a).
Qed.

Ltac qmax :=
  repeat first
    [ assumption
    | apply Qle_refl
    | apply Math_max_ge_r
    | (eapply Qle_trans; [|apply Math_max_ge_l]) ].

Ltac qmax_all Hall :=
  first
    [ apply Forall_app; split;
      [eapply Forall_Qle_weaken; [|exact Hall]; qmax | apply Forall_singleton; qmax]
    | eapply Forall_Qle_weaken; [|exact Hall]; qmax ].

Lemma measureBody_widths ctx width i word st loc :
  (0 <= maxWidth loc /\ _currentWidth loc <= maxWidth loc
   /\ Forall (fun q => q <= maxWidth loc) (lineWidths st)) ->
  0 <= maxWidth (measureBody ctx width i word st loc).2
  /\ _currentWidth (measureBody ctx width i word st loc).2
     <= maxWidth (measureBody ctx width i word st loc).2
  /\ Forall (fun q => q <= maxWidth (measureBody ctx width i word st loc).2)
            (lineWidths (measureBody ctx width i word st loc).1).
Proof.
  intros (H0 & Hcw & Hall). unfold measureBody.
  repeat (case_match; simpl); simplify_eq;
    (split; [qmax|split; [qmax|qmax_all Hall]]).
Qed.

(** X7.  The returned width is not negative and no recorded line is wider. *)
Theorem measure_width_bounds_lines ctx fuel width st size st' :
  measureFunc ctx fuel width st = Some (size, st') ->
  0 <= size_width size
  /\ Forall (fun lineWidth => lineWidth <= size_width size) (lineWidths st').
Proof.
  unfold measureFunc, measureCall. intros Hcall.
  destruct (measureLoop ctx width fuel 0 (measureEnter st) initLocals)
    as [[st1 loc1]|] eqn:Hloop; [|discriminate].
  apply (measureLoop_invariant ctx width
           (fun _ st loc => 0 <= maxWidth loc /\ _currentWidth loc <= maxWidth loc
                            /\ Forall (fun q => q <= maxWidth loc) (lineWidths st)))
    in Hloop as (n & (H0 & Hcw & Hall) & _).
  - unfold measureFlush in Hcall.
    destruct (truthy (_currentWidth loc1)); inversion Hcall; subst; simpl; [|done].
    split; [done|]. apply Forall_app. split; [done|]. by apply Forall_singleton.
  - intros i word st0 loc0 _. apply measureBody_widths.
  - simpl. repeat split; [apply Qle_refl|apply Qle_refl|constructor].
Qed.

(** "Hello World" in a width of 80: two lines, both within the result. *)
Lemma measure_width_bounds_lines_witness :
  exists size st',
    measureFunc Sample.normalContext 5 80 (initStore Sample.helloWorld ∅) = Some (size, st')
    /\ 0 <= size_width size
    /\ Forall (fun lineWidth => lineWidth <= size_width size) (lineWidths st').
Proof.
  eexists _, _. split; [vm_compute; reflexivity|].
  apply (measure_width_bounds_lines Sample.normalContext 5 80
           (initStore Sample.helloWorld ∅)).
  vm_compute; reflexivity.
Defined.

Lemma measureBody_nowrap ctx width i word st loc :
  whiteSpace ctx = WsNowrap ->
  isBreakWord ctx = false ->
  lineWidths (measureBody ctx width i word st loc).1 = lineWidths st.
Proof.
  intros Hws Hbw. unfold measureBody, shouldKeepLinebreak. rewrite Hws, Hbw. simpl.
  rewrite ?andb_false_r. simpl.
  repeat (case_match; simpl; rewrite ?andb_false_r in *); try reflexivity; try discriminate.
Qed.

(** X8.  Under [white-space: nowrap] without break-word the text is never
    broken: a call records at most one line. *)
Theorem nowrap_single_line ctx fuel width st size st' :
  whiteSpace ctx = WsNowrap ->
  isBreakWord ctx = false ->
  measureFunc ctx fuel width st = Some (size, st') ->
  (length (lineWidths st') <= 1)%nat.
Proof.
  intros Hws Hbw. unfold measureFunc, measureCall. intros Hcall.
  destruct (measureLoop ctx width fuel 0 (measureEnter st) initLocals)
    as [[st1 loc1]|] eqn:Hloop; [|discriminate].
  apply (measureLoop_invariant ctx width (fun _ st _ => lineWidths st = []))
    in Hloop as (n & Hnil & _).
  - unfold measureFlush in Hcall.
    destruct (truthy (_currentWidth loc1)); inversion Hcall; subst; simpl;
      rewrite Hnil; simpl; lia.
  - intros i word st0 loc0 _ Hnil. by rewrite measureBody_nowrap.
  - reflexivity.
Qed.

(** "Hello World" does not fit into a width of 30 and stays on one line. *)
Lemma nowrap_single_line_witness :
  exists size st',
    whiteSpace (Sample.context WsNowrap false TaLeft false false (Some ∅)) = WsNowrap
    /\ isBreakWord (Sample.context WsNowrap false TaLeft false false (Some ∅)) = false
    /\ measureFunc (Sample.context WsNowrap false TaLeft false false (Some ∅)) 5 30
         (initStore Sample.helloWorld ∅) = Some (size, st')
    /\ (length (lineWidths st') <= 1)%nat.
Proof.
  eexists _, _. split; [reflexivity|]. split; [reflexivity|].
  split; [vm_compute; reflexivity|].
  eapply (nowrap_single_line (Sample.context WsNowrap false TaLeft false false (Some ∅))
           5 30 (initStore Sample.helloWorld ∅));
    [reflexivity|reflexivity|vm_compute; reflexivity].
Defined.

Lemma measureBody_forced_break ctx width i word st loc :
  isBreakWord ctx = false ->
  shouldKeepLinebreak ctx = true ->
  (length (lineWidths st) <= length (lineWidths (measureBody ctx width i word st loc).1))%nat
  /\ (content word = LF ->
      length (lineWidths (measureBody ctx width i word st loc).1)
      = S (length (lineWidths st))).
Proof.
  intros Hbw Hkeep. unfold measureBody. rewrite Hbw, Hkeep, isCollapsedSpace_false. simpl.
  destruct (String.eqb (content word) LF) eqn:Hlf.
  - simpl. split; [rewrite length_app; simpl; lia|]. intros _.
    rewrite length_app. simpl. lia.
  - apply String.eqb_neq in Hlf.
    repeat (case_match; simpl); (split; [rewrite ?length_app; simpl; lia|done]).
Qed.

(** X9.  When line breaks are kept ([pre], [pre-wrap], [pre-line]) and
    break-word is off, every line feed of the text ends a line, whatever
    the available width: a call records at least as many lines as the text
    has line feeds. *)
Theorem forced_breaks_end_lines ctx fuel width st size st' :
  isBreakWord ctx = false ->
  shouldKeepLinebreak ctx = true ->
  measureFunc ctx fuel width st = Some (size, st') ->
  (length (filter (fun word => content word = LF) (words st))
   <= length (lineWidths st'))%nat.
Proof.
  intros Hbw Hkeep. unfold measureFunc, measureCall. intros Hcall.
  destruct (measureLoop ctx width fuel 0 (measureEnter st) initLocals)
    as [[st1 loc1]|] eqn:Hloop; [|discriminate].
  apply (measureLoop_invariant ctx width
           (fun i st0 _ =>
              words st0 = words st
              /\ (length (filter (fun word => content word = LF) (take i (words st)))
                  <= length (lineWidths st0))%nat))
    in Hloop as (n & (Hwords & Hcount) & Hn).
  - rewrite Hwords in Hn. rewrite take_ge in Hcount by done.
    unfold measureFlush in Hcall.
    destruct (truthy (_currentWidth loc1)); inversion Hcall; subst; simpl;
      rewrite ?length_app; simpl; lia.
  - intros i word st0 loc0 Hi [Hwords Hcount].
    split; [by rewrite measureBody_words|].
    rewrite Hwords in Hi. rewrite (take_S_r _ _ _ Hi), filter_app, length_app.
    destruct (measureBody_forced_break ctx width i word st0 loc0 Hbw Hkeep) as [Hle Hlf].
    rewrite filter_cons, filter_nil. destruct (decide (content word = LF)) as [Heq|Hne].
    + rewrite (Hlf Heq). simpl. lia.
    + simpl. lia.
  - simpl. split; [reflexivity|lia].
Qed.

(** The text "a", line feed, "b" measured in a width of 400. *)
Lemma forced_breaks_end_lines_witness :
  exists size st',
    isBreakWord Sample.preWrapContext = false
    /\ shouldKeepLinebreak Sample.preWrapContext = true
    /\ measureFunc Sample.preWrapContext 5 400 (initStore (Sample.plain ["a"; LF; "b"]) ∅)
       = Some (size, st')
    /\ (length (filter (fun word => content word = LF)
                  (words (initStore (Sample.plain ["a"; LF; "b"]) ∅)))
        <= length (lineWidths st'))%nat.
Proof.
  eexists _, _. split; [reflexivity|]. split; [reflexivity|].
  split; [vm_compute; reflexivity|].
  eapply (forced_breaks_end_lines Sample.preWrapContext 5 400
           (initStore (Sample.plain ["a"; LF; "b"]) ∅));
    [reflexivity|reflexivity|vm_compute; reflexivity].
Defined.

Lemma join_splice (l : list InlineText) (i : nat) (word : InlineText)
    (items : list InlineText) :
  l !! i = Some word ->
  join (map content items) = content word ->
  join (map content (splice1 i items l)) = join (map content l).
Proof.
  intros Hi Hitems. pose proof (take_drop_middle l i word Hi) as Hl.
  unfold splice1. set (a := take i l) in *. set (b := drop (S i) l) in *.
  rewrite <- Hl. rewrite !map_app, !join_app, Hitems. reflexivity.
Qed.

Lemma measureBody_text ctx width i word st loc :
  (forall s, join (segmentGraphemes ctx s) = s) ->
  words st !! i = Some word ->
  join (map content (words (measureBody ctx width i word st loc).1))
  = join (map content (words st)).
Proof.
  intros Hseg Hi.
  assert (Hsplice :
    join (map content
            (splice1 i (map (fun c => {| content := c; style := style word |})
                            ("" :: segmentGraphemes ctx (content word))) (words st)))
    = join (map content (words st))).
  { apply (join_splice _ _ word); [done|].
    rewrite map_map. simpl. rewrite map_id.
    change (join ("" :: segmentGraphemes ctx (content word)))
      with (join (segmentGraphemes ctx (content word))).
    apply Hseg. }
  unfold measureBody.
  repeat (case_match; simpl); try reflexivity; exact Hsplice.
Qed.

(** X10.  A call never loses or reorders text: when the grapheme segmenter cuts
    a string into pieces that concatenate to it, the contents of the words
    after the call concatenate to the same string as before, also when
    break-word has split words. *)
Theorem measure_keeps_text ctx fuel width st size st' :
  (forall s, join (segmentGraphemes ctx s) = s) ->
  measureFunc ctx fuel width st = Some (size, st') ->
  join (map content (words st')) = join (map content (words st)).
Proof.
  intros Hseg. unfold measureFunc, measureCall. intros Hcall.
  destruct (measureLoop ctx width fuel 0 (measureEnter st) initLocals)
    as [[st1 loc1]|] eqn:Hloop; [|discriminate].
  apply (measureLoop_invariant ctx width
           (fun _ st0 _ => join (map content (words st0)) = join (map content (words st))))
    in Hloop as (n & Htext & _).
  - unfold measureFlush in Hcall.
    destruct (truthy (_currentWidth loc1)); inversion Hcall; subst; exact Htext.
  - intros i word st0 loc0 Hi Htext. by rewrite measureBody_text.
  - reflexivity.
Qed.

(** "x" and "abc" in break-word mode: the call splits "abc". *)
Lemma measure_keeps_text_witness :
  exists size st',
    measureFunc Sample.breakWordContext 10 25 (initStore (Sample.plain ["x"; "abc"]) ∅)
      = Some (size, st')
    /\ map content (words st') = ["x"; ""; "a"; "b"; "c"]
    /\ join (map content (words st'))
       = join (map content (words (initStore (Sample.plain ["x"; "abc"]) ∅))).
Proof.
  eexists _, _. split; [vm_compute; reflexivity|]. split; [reflexivity|].
  eapply (measure_keeps_text Sample.breakWordContext 10 25
            (initStore (Sample.plain ["x"; "abc"]) ∅)).
  - exact chars_join.
  - vm_compute; reflexivity.
Defined.

Lemma take_array_set {A : Type} (hole v : A) (i : nat) (l : list A) :
  take (S i) (array_set hole i v l)
  = (take i l ++ replicate (i - length l) hole) ++ [v].
Proof.
  unfold array_set. destruct (i <? length l)%nat eqn:Hlt.
  - apply Nat.ltb_lt in Hlt.
    rewrite (take_S_r (<[i:=v]> l) i v) by (by apply list_lookup_insert_eq).
    rewrite take_insert_ge by lia.
    replace (i - length l)%nat with 0%nat by lia. simpl. by rewrite app_nil_r.
  - apply Nat.ltb_ge in Hlt.
    rewrite (take_ge l i) by done. rewrite take_ge; [by rewrite app_assoc|].
    rewrite !length_app, length_replicate. simpl. lia.
Qed.

Lemma take_array_set_eq {A : Type} (hole v : A) (i : nat) (l1 l2 : list A) :
  take i l1 = take i l2 ->
  take (S i) (array_set hole i v l1) = take (S i) (array_set hole i v l2).
Proof.
  intros Htake. rewrite !take_array_set, Htake.
  assert (Hlen : length (take i l1) = length (take i l2)) by by rewrite Htake.
  rewrite !length_take in Hlen.
  replace (i - length l1)%nat with (i - length l2)%nat by lia. reflexivity.
Qed.

(** What one iteration writes into the line arrays and at index [i] of the
    word positions depends on the store only through [words], as long as
    break-word is off. *)
Lemma measureBody_fresh ctx width i word st1 st2 loc :
  isBreakWord ctx = false ->
  sameInput (engine ctx) st1 st2 ->
  lineWidths st1 = lineWidths st2 ->
  lineSegmentNumber st1 = lineSegmentNumber st2 ->
  take i (wordPositionInLayout st1) = take i (wordPositionInLayout st2) ->
  lineWidths (measureBody ctx width i word st1 loc).1
    = lineWidths (measureBody ctx width i word st2 loc).1
  /\ lineSegmentNumber (measureBody ctx width i word st1 loc).1
     = lineSegmentNumber (measureBody ctx width i word st2 loc).1
  /\ take (S i) (wordPositionInLayout (measureBody ctx width i word st1 loc).1)
     = take (S i) (wordPositionInLayout (measureBody ctx width i word st2 loc).1).
Proof.
  intros Hbw (Hw & Hc1 & Hc2) Hlw Hsegs Hpos. unfold measureBody.
  set (space := if String.eqb (remainingSpace loc) "" then " " else remainingSpace loc).
  destruct (measureWithCache_one (engine ctx) space _ Hc1) as (ca1 & -> & Hca1).
  destruct (measureWithCache_one (engine ctx) space _ Hc2) as (ca2 & -> & Hca2).
  destruct (measureWithCache_one (engine ctx) (content word) _ Hc1) as (cb1 & -> & Hcb1).
  destruct (measureWithCache_one (engine ctx) (content word) _ Hc2) as (cb2 & -> & Hcb2).
  rewrite Hw, Hlw, Hsegs, Hbw. clearbody space. cbv zeta.
  repeat (split_if; cbv beta iota).
  all: try (simpl in *; discriminate).
  all: cbn [lineWidths lineSegmentNumber wordPositionInLayout fst snd];
    repeat split; try reflexivity; by apply take_array_set_eq.
Qed.

Lemma take_le_eq {A : Type} (m n : nat) (l1 l2 : list A) :
  (m <= n)%nat -> take n l1 = take n l2 -> take m l1 = take m l2.
Proof.
  intros Hle Heq.
  assert (H1 : take m l1 = take m (take n l1)) by (rewrite take_take; f_equal; lia).
  assert (H2 : take m l2 = take m (take n l2)) by (rewrite take_take; f_equal; lia).
  by rewrite H1, H2, Heq.
Qed.

Lemma measureLoop_fresh ctx width fuel :
  forall i st1 st2 loc st1' loc1,
    isBreakWord ctx = false ->
    sameInput (engine ctx) st1 st2 ->
    lineWidths st1 = lineWidths st2 ->
    lineSegmentNumber st1 = lineSegmentNumber st2 ->
    take i (wordPositionInLayout st1) = take i (wordPositionInLayout st2) ->
    measureLoop ctx width fuel i st1 loc = Some (st1', loc1) ->
    exists st2' n,
      measureLoop ctx width fuel i st2 loc = Some (st2', loc1)
      /\ lineWidths st1' = lineWidths st2'
      /\ lineSegmentNumber st1' = lineSegmentNumber st2'
      /\ take n (wordPositionInLayout st1') = take n (wordPositionInLayout st2')
      /\ (length (words st1') <= n)%nat.
Proof.
  induction fuel as [|fuel IH];
    intros i st1 st2 loc st1' loc1 Hbw Hsame Hlw Hsegs Hpos Hrun; [discriminate|].
  simpl in *. pose proof Hsame as (Hw & _ & _). rewrite <- Hw.
  destruct (words st1 !! i) as [word|] eqn:Hi.
  - destruct (measureBody_same ctx width i word st1 st2 loc Hsame) as [Hsame' Hloc].
    destruct (measureBody_fresh ctx width i word st1 st2 loc Hbw Hsame Hlw Hsegs Hpos)
      as (Hlw' & Hsegs' & Hpos').
    destruct (measureBody ctx width i word st1 loc) as [a1 l1].
    destruct (measureBody ctx width i word st2 loc) as [a2 l2].
    simpl in *. subst l2. by apply (IH (S i) a1 a2 l1).
  - inversion Hrun; subst. exists st2, i. repeat split; try done.
    by apply lookup_ge_None_1.
Qed.

(** X11.  Without break-word a call recomputes the line widths, the segment
    counts and the position of every word: whatever earlier calls left in
    the store, a call on the same words with the same width returns the
    same size and leaves the same [lineWidths], the same
    [lineSegmentNumber] and the same entries of [wordPositionInLayout] for
    all words. *)
Theorem measure_recomputes_layout ctx fuel width st1 st2 size st1' :
  isBreakWord ctx = false ->
  sameInput (engine ctx) st1 st2 ->
  measureFunc ctx fuel width st1 = Some (size, st1') ->
  exists st2',
    measureFunc ctx fuel width st2 = Some (size, st2')
    /\ lineWidths st1' = lineWidths st2'
    /\ lineSegmentNumber st1' = lineSegmentNumber st2'
    /\ take (length (words st1)) (wordPositionInLayout st1')
       = take (length (words st1)) (wordPositionInLayout st2').
Proof.
  intros Hbw Hsame. unfold measureFunc, measureCall. intros Hcall.
  destruct (measureLoop ctx width fuel 0 (measureEnter st1) initLocals)
    as [[a1 l1]|] eqn:Hloop; [|discriminate].
  assert (Hwords : words a1 = words st1).
  { apply (measureLoop_invariant ctx width (fun _ st0 _ => words st0 = words st1))
      in Hloop as (n & Hn & _); [done| |done].
    intros i word st0 loc0 _ <-. by apply measureBody_words. }
  apply (measureLoop_fresh ctx width fuel 0 _ (measureEnter st2)) in Hloop
    as (a2 & n & -> & Hlw & Hsegs & Hpos & Hn); try done.
  rewrite Hwords in Hn. apply (take_le_eq _ _ _ _ Hn) in Hpos.
  unfold measureFlush in *.
  destruct (truthy (_currentWidth l1)); inversion Hcall; subst; simpl;
    eexists; (split; [reflexivity|]); simpl; by rewrite Hlw, Hsegs.
Qed.


(** A call keeps the cache in agreement with the engine. *)
Lemma measureFunc_cache_ok ctx fuel width st size st' :
  cache_ok (engine ctx) (wordWidthCache st) ->
  measureFunc ctx fuel width st = Some (size, st') ->
  cache_ok (engine ctx) (wordWidthCache st').
Proof.
  intros Hok. unfold measureFunc. intros Hcall.
  assert (Hrefl : sameInput (engine ctx) st st) by done.
  pose proof (measureCall_same ctx width fuel st st Hrefl) as Hself.
  destruct (measureCall ctx fuel width st) as [[a l]|]; [|discriminate].
  destruct Hself as [(_ & Hca & _) _]. by injection Hcall as _ <-.
Qed.

Lemma measured_cache_ok ctx fuel width ws :
  cache_ok (engine ctx) (wordWidthCache (Sample.measured ctx fuel width ws)).
Proof.
  unfold Sample.measured.
  destruct (measureFunc ctx fuel width (initStore ws ∅)) as [[size st]|] eqn:Hcall.
  - eapply measureFunc_cache_ok; [|exact Hcall]. apply cache_ok_empty.
  - apply cache_ok_empty.
Qed.

(** "Hello World" measured with width 80 after a call with width 400, and
    measured with width 80 at once. *)
Lemma measure_recomputes_layout_witness :
  exists size st1',
    isBreakWord Sample.normalContext = false
    /\ sameInput (engine Sample.normalContext)
         (Sample.measured Sample.normalContext 5 400 Sample.helloWorld)
         (initStore Sample.helloWorld ∅)
    /\ measureFunc Sample.normalContext 5 80
         (Sample.measured Sample.normalContext 5 400 Sample.helloWorld) = Some (size, st1')
    /\ exists st2',
         measureFunc Sample.normalContext 5 80 (initStore Sample.helloWorld ∅)
           = Some (size, st2')
         /\ lineWidths st1' = lineWidths st2'
         /\ lineSegmentNumber st1' = lineSegmentNumber st2'
         /\ take (length (words (Sample.measured Sample.normalContext 5 400
                                   Sample.helloWorld)))
                 (wordPositionInLayout st1')
            = take (length (words (Sample.measured Sample.normalContext 5 400
                                     Sample.helloWorld)))
                   (wordPositionInLayout st2').
Proof.
  assert (Hsame : sameInput (engine Sample.normalContext)
                    (Sample.measured Sample.normalContext 5 400 Sample.helloWorld)
                    (initStore Sample.helloWorld ∅)).
  { split; [reflexivity|]. split; [apply measured_cache_ok|apply cache_ok_empty]. }
  eexists _, _. split; [reflexivity|]. split; [exact Hsame|].
  split; [vm_compute; reflexivity|].
  apply (measure_recomputes_layout Sample.normalContext 5 80
           (Sample.measured Sample.normalContext 5 400 Sample.helloWorld)
           (initStore Sample.helloWorld ∅));
    [reflexivity|exact Hsame|vm_compute; reflexivity].
Defined.

Lemma length_array_set {A : Type} (hole v : A) (i : nat) (l : list A) :
  length (array_set hole i v l) = (length l `max` S i)%nat.
Proof.
  unfold array_set. destruct (i <? length l)%nat eqn:Hlt.
  - apply Nat.ltb_lt in Hlt. rewrite length_insert. lia.
  - apply Nat.ltb_ge in Hlt. rewrite !length_app, length_replicate. simpl. lia.
Qed.

(** Without break-word every iteration writes the position of its word. *)
Lemma measureBody_writes ctx width i word st loc :
  isBreakWord ctx = false ->
  exists slot,
    slot <> Hole
    /\ wordPositionInLayout (measureBody ctx width i word st loc).1
       = array_set Hole i slot (wordPositionInLayout st).
Proof.
  intros Hbw. unfold measureBody. rewrite Hbw. simpl.
  repeat (case_match; simpl); eexists; (split; [|reflexivity]); done.
Qed.

(** X12.  Without break-word the callback returns after one iteration for each
    word, leaves the words as they are, and leaves an entry that is not a
    hole in [wordPositionInLayout] for every word; the array is as long as
    the word list unless it was longer before. *)
Theorem measure_without_break_word ctx width st :
  isBreakWord ctx = false ->
  exists size st',
    measureFunc ctx (S (length (words st))) width st = Some (size, st')
    /\ words st' = words st
    /\ length (wordPositionInLayout st')
       = (length (wordPositionInLayout st) `max` length (words st))%nat
    /\ Forall (fun slot => slot <> Hole)
              (take (length (words st)) (wordPositionInLayout st')).
Proof.
  intros Hbw. destruct (measureFunc_returns ctx width st Hbw) as [[size st'] Hcall].
  exists size, st'. split; [exact Hcall|].
  unfold measureFunc, measureCall in Hcall.
  destruct (measureLoop ctx width (S (length (words st))) 0 (measureEnter st) initLocals)
    as [[st1 loc1]|] eqn:Hloop; [|discriminate].
  apply (measureLoop_invariant ctx width
           (fun i st0 _ =>
              words st0 = words st
              /\ (i <= length (words st))%nat
              /\ length (wordPositionInLayout st0)
                 = (length (wordPositionInLayout st) `max` i)%nat
              /\ Forall (fun slot => slot <> Hole) (take i (wordPositionInLayout st0))))
    in Hloop as (n & (Hwords & Hle & Hlen & Hall) & Hn).
  - rewrite Hwords in Hn. assert (n = length (words st)) as -> by lia.
    unfold measureFlush in Hcall.
    destruct (truthy (_currentWidth loc1)); inversion Hcall; subst; done.
  - intros i word st0 loc0 Hi (Hwords & Hle & Hlen & Hall).
    destruct (measureBody_writes ctx width i word st0 loc0 Hbw) as (slot & Hslot & Hwpl).
    rewrite Hwpl. split; [by rewrite measureBody_words|].
    rewrite Hwords in Hi. apply lookup_lt_Some in Hi. split; [lia|].
    split; [rewrite length_array_set; lia|].
    rewrite take_array_set. apply Forall_app. split; [|by apply Forall_singleton].
    apply Forall_app. split; [done|].
    replace (i - length (wordPositionInLayout st0))%nat with 0%nat by lia. constructor.
  - simpl. repeat split; [lia|lia|constructor].
Qed.

(** "Hello World" in a width of 80. *)
Lemma measure_without_break_word_witness :
  isBreakWord Sample.normalContext = false
  /\ exists size st',
       measureFunc Sample.normalContext
         (S (length (words (initStore Sample.helloWorld ∅)))) 80
         (initStore Sample.helloWorld ∅) = Some (size, st')
       /\ words st' = words (initStore Sample.helloWorld ∅)
       /\ length (wordPositionInLayout st')
          = (length (wordPositionInLayout (initStore Sample.helloWorld ∅))
             `max` length (words (initStore Sample.helloWorld ∅)))%nat
       /\ Forall (fun slot => slot <> Hole)
                 (take (length (words (initStore Sample.helloWorld ∅)))
                       (wordPositionInLayout st')).
Proof.
  split; [reflexivity|].
  apply (measure_without_break_word Sample.normalContext 80
           (initStore Sample.helloWorld ∅)).
  reflexivity.
Defined.

(** ** Break-word when the graphemes fit *)

(** An iteration either leaves the words as they are or splits an
    oversized word into the placeholder and its graphemes. *)
Lemma measureBody_splits ctx width i word st loc :
  cache_ok (engine ctx) (wordWidthCache st) ->
  words (measureBody ctx width i word st loc).1 = words st
  \/ (oversized ctx width (content word) = true
      /\ words (measureBody ctx width i word st loc).1
         = splice1 i (map (fun c => {| content := c; style := style word |})
                          ("" :: segmentGraphemes ctx (content word))) (words st)).
Proof.
  intros Hok. unfold measureBody, oversized, tokenWidth.
  destruct (measureWithCache_one (engine ctx) (content word) _ Hok) as (c1 & -> & Hc1).
  rewrite isCollapsedSpace_false.
  destruct (shouldKeepLinebreak ctx && (content word =? LF)%string) eqn:Hfb;
    [|destruct (isImage ctx (content word)) eqn:Himg]; cbv zeta beta iota.
  all: match goal with
       | |- context [if ?c then _ else _] =>
           match c with
           | (?b && ?w && _) =>
               destruct (b && w) eqn:Hov
           end
       end.
  all: cbn [andb]; repeat (case_match; simpl); auto.
Qed.

Lemma totalIterations_app ctx width (l1 l2 : list InlineText) :
  totalIterations ctx width (l1 ++ l2)
  = (totalIterations ctx width l1 + totalIterations ctx width l2)%nat.
Proof.
  induction l1 as [|word l1 IH]; simpl; [reflexivity|]. rewrite IH. lia.
Qed.

Lemma totalIterations_fitting ctx width style0 (gs : list string) :
  Forall (fun g => oversized ctx width g = false) gs ->
  totalIterations ctx width (map (fun c => {| content := c; style := style0 |}) gs)
  = length gs
  /\ Forall (graphemesFit ctx width)
            (map (fun c => {| content := c; style := style0 |}) gs).
Proof.
  induction 1 as [|g gs Hg Hgs [IHn IHfit]]; simpl; [by split|].
  unfold iterations at 1. simpl. rewrite Hg, IHn. split; [reflexivity|].
  constructor; [|done]. unfold graphemesFit. simpl. congruence.
Qed.

Lemma drop_splice1 {A : Type} (i : nat) (x : A) (items l : list A) :
  (i < length l)%nat ->
  drop (S i) (splice1 i (x :: items) l) = items ++ drop (S i) l.
Proof.
  intros Hi. unfold splice1.
  rewrite drop_app_ge by (rewrite length_take; lia).
  rewrite length_take. replace (S i - i `min` length l)%nat with 1%nat by lia.
  reflexivity.
Qed.

Lemma iterations_pos ctx width word : (1 <= iterations ctx width word)%nat.
Proof. unfold iterations. destruct (oversized ctx width (content word)); lia. Qed.

Lemma measureLoop_break_word_returns ctx width fuel :
  forall i st loc,
    cache_ok (engine ctx) (wordWidthCache st) ->
    Forall (graphemesFit ctx width) (drop i (words st)) ->
    (totalIterations ctx width (drop i (words st)) <= fuel)%nat ->
    exists r, measureLoop ctx width (S fuel) i st loc = Some r.
Proof.
  induction fuel as [|fuel IH]; intros i st loc Hok Hfit Hfuel.
  - simpl. destruct (words st !! i) as [word|] eqn:Hi; [|eauto].
    rewrite (drop_S _ _ _ Hi) in Hfuel. simpl in Hfuel.
    pose proof (iterations_pos ctx width word). lia.
  - cbn [measureLoop]. destruct (words st !! i) as [word|] eqn:Hi; [|eauto].
    rewrite (drop_S _ _ _ Hi) in Hfit, Hfuel. simpl in Hfuel.
    apply Forall_cons in Hfit as [Hword Hrest].
    assert (Hok' : cache_ok (engine ctx)
                     (wordWidthCache (measureBody ctx width i word st loc).1)).
    { destruct (measureBody_same ctx width i word st st loc) as [(_ & H & _) _]; done. }
    destruct (measureBody_splits ctx width i word st loc Hok) as [Hsame|[Hover Hsplit]].
    + destruct (measureBody ctx width i word st loc) as [st1 loc1]. simpl in *.
      apply IH; [done|by rewrite Hsame|]. rewrite Hsame.
      pose proof (iterations_pos ctx width word). lia.
    + destruct (measureBody ctx width i word st loc) as [st1 loc1]. simpl in *.
      unfold iterations in Hfuel. rewrite Hover in Hfuel.
      destruct (totalIterations_fitting ctx width (style word) _ (Hword Hover))
        as [Hn Hgs].
      assert (Hdrop : drop (S i) (words st1)
                      = map (fun c => {| content := c; style := style word |})
                            (segmentGraphemes ctx (content word))
                        ++ drop (S i) (words st)).
      { rewrite Hsplit. apply drop_splice1. by apply lookup_lt_Some in Hi. }
      apply IH; [done| |]; rewrite Hdrop.
      * by apply Forall_app.
      * rewrite totalIterations_app, Hn. lia.
Qed.

(** X13.  In break-word mode the callback returns when no grapheme of a word
    that can be split is itself wider than the available width; the number
    of iterations is at most one for each word and one more for each
    grapheme of a word that is split. *)
Theorem break_word_returns ctx width st :
  cache_ok (engine ctx) (wordWidthCache st) ->
  Forall (graphemesFit ctx width) (words st) ->
  exists size st',
    measureFunc ctx (S (totalIterations ctx width (words st))) width st
    = Some (size, st').
Proof.
  intros Hok Hfit. unfold measureFunc, measureCall.
  destruct (measureLoop_break_word_returns ctx width
              (totalIterations ctx width (words st)) 0 (measureEnter st) initLocals)
    as [[st1 loc1] ->]; [done|done|apply Nat.le_refl|].
  destruct (measureFlush st1 loc1). eauto.
Qed.

(** "x" and "abc" in a width of 25: "abc" is split, its characters fit. *)
Lemma break_word_returns_witness :
  cache_ok (engine Sample.breakWordContext)
    (wordWidthCache (initStore (Sample.plain ["x"; "abc"]) ∅))
  /\ Forall (graphemesFit Sample.breakWordContext 25)
            (words (initStore (Sample.plain ["x"; "abc"]) ∅))
  /\ exists size st',
       measureFunc Sample.breakWordContext
         (S (totalIterations Sample.breakWordContext 25
               (words (initStore (Sample.plain ["x"; "abc"]) ∅)))) 25
         (initStore (Sample.plain ["x"; "abc"]) ∅) = Some (size, st').
Proof.
  assert (Hfit : Forall (graphemesFit Sample.breakWordContext 25)
                        (words (initStore (Sample.plain ["x"; "abc"]) ∅))).
  { repeat constructor; intros Hover; vm_compute in Hover; try discriminate;
      vm_compute; repeat constructor. }
  split; [apply cache_ok_empty|]. split; [exact Hfit|].
  apply (break_word_returns Sample.breakWordContext 25
           (initStore (Sample.plain ["x"; "abc"]) ∅)); [apply cache_ok_empty|exact Hfit].
Defined.

(** ** The lines of the word positions *)

Lemma measureBody_lines ctx width i word st loc :
  isBreakWord ctx = false ->
  lines loc = length (lineWidths st) ->
  exists slot,
    wordPositionInLayout (measureBody ctx width i word st loc).1
      = array_set Hole i slot (wordPositionInLayout st)
    /\ (forall n, slotLine slot = Some n -> n = lines (measureBody ctx width i word st loc).2)
    /\ (lines loc <= lines (measureBody ctx width i word st loc).2)%nat
    /\ lines (measureBody ctx width i word st loc).2
       = length (lineWidths (measureBody ctx width i word st loc).1).
Proof.
  intros Hbw Hlines. unfold measureBody. rewrite Hbw. simpl.
  repeat (case_match; simpl); eexists; (split; [reflexivity|]); simpl;
    rewrite ?length_app; simpl;
    (split; [intros n Hn; by simplify_eq|]); split; lia.
Qed.

Lemma StronglySorted_snoc (l : list nat) (n : nat) :
  StronglySorted le l -> Forall (fun m => (m <= n)%nat) l -> StronglySorted le (l ++ [n]).
Proof.
  induction 1 as [|m l Hsorted IH Hm]; intros Hall; simpl.
  - repeat constructor.
  - apply Forall_cons in Hall as [Hmn Hall]. constructor; [by apply IH|].
    apply Forall_app. split; [done|]. by apply Forall_singleton.
Qed.

Lemma omap_replicate_hole (k : nat) : omap slotLine (replicate k Hole) = [].
Proof. induction k; simpl; [reflexivity|done]. Qed.

(** X14.  Without break-word, the lines of the positions that a call records are
    in the order of the words: they never decrease from one word to the
    next, and none is greater than the number of recorded lines. *)
Theorem measure_lines_in_order ctx fuel width st size st' :
  isBreakWord ctx = false ->
  measureFunc ctx fuel width st = Some (size, st') ->
  StronglySorted le
    (omap slotLine (take (length (words st)) (wordPositionInLayout st')))
  /\ Forall (fun n => (n <= length (lineWidths st'))%nat)
       (omap slotLine (take (length (words st)) (wordPositionInLayout st'))).
Proof.
  intros Hbw. unfold measureFunc, measureCall. intros Hcall.
  destruct (measureLoop ctx width fuel 0 (measureEnter st) initLocals)
    as [[st1 loc1]|] eqn:Hloop; [|discriminate].
  apply (measureLoop_invariant ctx width
           (fun i st0 loc0 =>
              words st0 = words st
              /\ (i <= length (words st))%nat
              /\ lines loc0 = length (lineWidths st0)
              /\ StronglySorted le (omap slotLine (take i (wordPositionInLayout st0)))
              /\ Forall (fun n => (n <= lines loc0)%nat)
                        (omap slotLine (take i (wordPositionInLayout st0)))))
    in Hloop as (n & (Hwords & Hle & Hlines & Hsorted & Hall) & Hn).
  - rewrite Hwords in Hn. assert (n = length (words st)) as -> by lia.
    unfold measureFlush in Hcall.
    destruct (truthy (_currentWidth loc1)); inversion Hcall; subst; simpl.
    + split; [done|]. rewrite length_app. simpl.
      eapply Forall_impl; [exact Hall|]. simpl. intros m Hm. lia.
    + split; [done|]. by rewrite <- Hlines.
  - intros i word st0 loc0 Hi (Hwords & Hle & Hlines & Hsorted & Hall).
    destruct (measureBody_lines ctx width i word st0 loc0 Hbw Hlines)
      as (slot & Hwpl & Hslot & Hmono & Hlines').
    rewrite Hwpl. split; [by rewrite measureBody_words|].
    rewrite Hwords in Hi. apply lookup_lt_Some in Hi. split; [lia|].
    split; [exact Hlines'|].
    rewrite take_array_set, !omap_app, omap_replicate_hole, app_nil_r.
    assert (Hall' : Forall (fun n => (n <= lines (measureBody ctx width i word st0 loc0).2)%nat)
                      (omap slotLine (take i (wordPositionInLayout st0)))).
    { eapply Forall_impl; [exact Hall|]. simpl. intros m Hm. lia. }
    simpl. destruct (slotLine slot) as [n|] eqn:Hn; simpl.
    + rewrite (Hslot n eq_refl). split.
      * by apply StronglySorted_snoc.
      * apply Forall_app. split; [done|]. by apply Forall_singleton.
    + rewrite app_nil_r. by split.
  - simpl. repeat split; try lia; constructor.
Qed.

(** "Hello World" on two lines. *)
Lemma measure_lines_in_order_witness :
  exists size st',
    isBreakWord Sample.normalContext = false
    /\ measureFunc Sample.normalContext 5 80 (initStore Sample.helloWorld ∅)
       = Some (size, st')
    /\ StronglySorted le
         (omap slotLine (take (length (words (initStore Sample.helloWorld ∅)))
                              (wordPositionInLayout st')))
    /\ Forall (fun n => (n <= length (lineWidths st'))%nat)
         (omap slotLine (take (length (words (initStore Sample.helloWorld ∅)))
                              (wordPositionInLayout st'))).
Proof.
  eexists _, _. split; [reflexivity|]. split; [vm_compute; reflexivity|].
  eapply (measure_lines_in_order Sample.normalContext 5 80
            (initStore Sample.helloWorld ∅));
    [reflexivity|vm_compute; reflexivity].
Defined.

(** ** The painter *)

Lemma mergeCondition_ok ctx st i original word topOffset :
  is_Some (graphemeImages ctx) ->
  exists merge, mergeCondition ctx st i original word topOffset = Ok merge.
Proof.
  intros [imgs Himgs]. unfold mergeCondition. rewrite Himgs.
  repeat (case_match; simpl); eauto.
Qed.

Lemma paintWord_ok ctx g st ellipsisWidth spaceWidth i ps :
  embedFont ctx = false \/ is_Some (graphemeImages ctx) ->
  exists ps', paintWord ctx g st ellipsisWidth spaceWidth i ps = Ok ps'.
Proof.
  intros Hsafe. unfold paintWord.
  destruct (words st !! i) as [original|]; [|eauto].
  destruct (wordPositionInLayout st !! i) as [[| |layout]|]; eauto.
  destruct (Z.of_nat (pos_line layout) =? skippedLine ps)%Z; [eauto|].
  destruct (alignedOffset ctx g st layout) as [leftOffset extended].
  destruct (truncate ctx g st ellipsisWidth spaceWidth original layout (paintCache ps))
    as [truncated cache'].
  destruct (truthy_str (imageOf ctx (content original))); [simpl; eauto|].
  destruct (embedFont ctx) eqn:Hembed; [|simpl; eauto].
  destruct Hsafe as [?|Himgs]; [done|].
  match goal with
  | |- context [mergeCondition ?c ?s ?j ?o ?w ?t] =>
      destruct (mergeCondition_ok c s j o w t Himgs) as [merge ->]
  end.
  destruct merge; simpl; eauto.
Qed.

Lemma paintLoop_ok ctx g st ellipsisWidth spaceWidth indices :
  forall ps,
    embedFont ctx = false \/ is_Some (graphemeImages ctx) ->
    exists ps', paintLoop ctx g st ellipsisWidth spaceWidth indices ps = Ok ps'.
Proof.
  induction indices as [|i rest IH]; intros ps Hsafe; simpl; [eauto|].
  destruct (paintWord_ok ctx g st ellipsisWidth spaceWidth i ps Hsafe) as [ps1 ->].
  simpl. by apply IH.
Qed.

Lemma paint_ok ctx g st :
  embedFont ctx = false \/ is_Some (graphemeImages ctx) ->
  exists ps, paint ctx g st = Ok ps.
Proof.
  intros Hsafe. unfold paint.
  destruct (if textOverflowEllipsis ctx
            then measureWithCache (engine ctx) [ellipsis] (wordWidthCache st)
            else (0, wordWidthCache st)) as [ellipsisWidth cache1].
  destruct (if textOverflowEllipsis ctx
            then measureWithCache (engine ctx) [" "] cache1
            else (0, cache1)) as [spaceWidth cache2].
  by apply paintLoop_ok.
Qed.

(** X15.  The painter raises only when outlines are embedded and
    [graphemeImages] is absent: in every other configuration it returns,
    whatever the store holds. *)
Theorem paint_returns ctx g st :
  embedFont ctx = false \/ is_Some (graphemeImages ctx) ->
  exists ps, paint ctx g st = Ok ps.
Proof. apply paint_ok. Qed.

(** Outlines embedded with a table of images. *)
Lemma paint_returns_witness :
  (embedFont Sample.embedContext = false \/ is_Some (graphemeImages Sample.embedContext))
  /\ exists ps,
       paint Sample.embedContext (Sample.geometry 100 100)
         (Sample.measured Sample.embedContext 5 100 Sample.abc) = Ok ps.
Proof.
  assert (Hsafe : embedFont Sample.embedContext = false
                  \/ is_Some (graphemeImages Sample.embedContext))
    by (right; eexists; reflexivity).
  split; [exact Hsafe|].
  apply (paint_returns Sample.embedContext (Sample.geometry 100 100)
           (Sample.measured Sample.embedContext 5 100 Sample.abc) Hsafe).
Defined.

Lemma paintLoop_skipped ctx g st ellipsisWidth spaceWidth rest :
  forall ps,
    (forall j l, j ∈ rest -> wordPositionInLayout st !! j = Some (Pos l) ->
                 Z.of_nat (pos_line l) = skippedLine ps) ->
    paintLoop ctx g st ellipsisWidth spaceWidth rest ps = Ok ps.
Proof.
  induction rest as [|j rest IH]; intros ps Hline; simpl; [reflexivity|].
  assert (Hword : paintWord ctx g st ellipsisWidth spaceWidth j ps = Ok ps).
  { destruct (wordPositionInLayout st !! j) as [[| |l]|] eqn:Hj.
    - unfold paintWord. rewrite Hj. by destruct (words st !! j).
    - unfold paintWord. rewrite Hj. by destruct (words st !! j).
    - apply (paintWord_skipped _ _ _ _ _ _ _ l Hj). apply (Hline j l); [by left|done].
    - unfold paintWord. rewrite Hj. by destruct (words st !! j). }
  rewrite Hword. simpl. apply IH. intros k l Hk. apply Hline. by right.
Qed.

(** X16.  After a word is truncated its line is skipped: the words that follow
    on that line are not painted and leave the state of the painter as it
    is. *)
Theorem truncated_line_is_dropped ctx g st ellipsisWidth spaceWidth i ps ps'
    original layout kept rest :
  words st !! i = Some original ->
  wordPositionInLayout st !! i = Some (Pos layout) ->
  Z.of_nat (pos_line layout) <> skippedLine ps ->
  (truncate ctx g st ellipsisWidth spaceWidth original layout (paintCache ps)).1
    = Some kept ->
  paintWord ctx g st ellipsisWidth spaceWidth i ps = Ok ps' ->
  (forall j l, j ∈ rest -> wordPositionInLayout st !! j = Some (Pos l) ->
               pos_line l = pos_line layout) ->
  skippedLine ps' = Z.of_nat (pos_line layout)
  /\ paintLoop ctx g st ellipsisWidth spaceWidth rest ps' = Ok ps'.
Proof.
  intros Hword Hpos Hline Htrunc Hpaint Hrest.
  assert (Hskipped : skippedLine ps' = Z.of_nat (pos_line layout)).
  { unfold paintWord in Hpaint. rewrite Hword, Hpos in Hpaint.
    rewrite (proj2 (Z.eqb_neq _ _) Hline) in Hpaint.
    destruct (alignedOffset ctx g st layout) as [leftOffset extended].
    destruct (truncate ctx g st ellipsisWidth spaceWidth original layout (paintCache ps))
      as [truncated cache'].
    simpl in Htrunc. subst truncated. destruct kept as [subset resolved].
    destruct (truthy_str (imageOf ctx (content original))); simpl in Hpaint.
    - by injection Hpaint as <-.
    - destruct (embedFont ctx); simpl in Hpaint; [|by injection Hpaint as <-].
      match type of Hpaint with
      | context [mergeCondition ?c ?s ?j ?o ?w ?t] =>
          destruct (mergeCondition c s j o w t) as [[|]|]; simpl in Hpaint
      end; [by injection Hpaint as <-|by injection Hpaint as <-|discriminate]. }
  split; [exact Hskipped|].
  apply paintLoop_skipped. intros j l Hj Hl. rewrite Hskipped. f_equal. by apply (Hrest j).
Qed.

Lemma paintWord_plain ctx g st i ps original layout :
  embedFont ctx = false ->
  textOverflowEllipsis ctx = false ->
  textDecorationLine ctx = false ->
  skippedLine ps = (-1)%Z ->
  words st !! i = Some original ->
  wordPositionInLayout st !! i = Some (Pos layout) ->
  exists ps',
    paintWord ctx g st 0 0 i ps = Ok ps'
    /\ skippedLine ps' = (-1)%Z
    /\ map (fun e => (e.1, eventText e.2)) (events ps')
       = map (fun e => (e.1, eventText e.2)) (events ps) ++ [(i, Some (content original))].
Proof.
  intros Hembed Hell Hdeco Hskip Hword Hpos.
  unfold paintWord, truncate. rewrite Hword, Hpos, Hskip, Hell, Hembed, Hdeco.
  replace (Z.of_nat (pos_line layout) =? -1)%Z with false
    by (symmetry; apply Z.eqb_neq; lia).
  destruct (alignedOffset ctx g st layout) as [leftOffset extended]. cbn [andb].
  destruct (truthy_str (imageOf ctx (content original))); cbn [mbind Result_bind mret];
    cbv zeta; repeat case_match; simplify_eq;
    eexists; (split; [reflexivity|]); (split; [reflexivity|]);
    cbn [events]; rewrite map_app; reflexivity.
Qed.

Lemma paintLoop_plain ctx g st indices :
  forall ps,
    embedFont ctx = false ->
    textOverflowEllipsis ctx = false ->
    textDecorationLine ctx = false ->
    skippedLine ps = (-1)%Z ->
    exists ps',
      paintLoop ctx g st 0 0 indices ps = Ok ps'
      /\ skippedLine ps' = (-1)%Z
      /\ map (fun e => (e.1, eventText e.2)) (events ps')
         = map (fun e => (e.1, eventText e.2)) (events ps) ++ positioned st indices.
Proof.
  induction indices as [|i rest IH]; intros ps Hembed Hell Hdeco Hskip; simpl.
  - exists ps. by rewrite app_nil_r.
  - unfold positioned. simpl.
    destruct (words st !! i) as [original|] eqn:Hword;
      [destruct (wordPositionInLayout st !! i) as [[| |layout]|] eqn:Hpos|].
    3: { destruct (paintWord_plain ctx g st i ps original layout
                     Hembed Hell Hdeco Hskip Hword Hpos) as (ps1 & -> & Hs1 & Hev1).
         destruct (IH ps1 Hembed Hell Hdeco Hs1) as (ps' & Hrun & Hs & Hev).
         exists ps'. split; [exact Hrun|]. split; [exact Hs|].
         rewrite Hev, Hev1, <- app_assoc. reflexivity. }
    all: unfold paintWord; rewrite Hword, ?Hpos; simpl; by apply IH.
Qed.

(** X17.  Without embedded outlines, ellipsis and decoration the painter emits
    one text element for every word that has a position, in the order of
    the words and with the content of the word, and nothing for the other
    words. *)
Theorem paint_plain ctx g st :
  embedFont ctx = false ->
  textOverflowEllipsis ctx = false ->
  textDecorationLine ctx = false ->
  exists ps,
    paint ctx g st = Ok ps
    /\ map (fun e => (e.1, eventText e.2)) (events ps)
       = positioned st (seq 0 (length (words st))).
Proof.
  intros Hembed Hell Hdeco. unfold paint. rewrite Hell.
  destruct (paintLoop_plain ctx g st (seq 0 (length (words st)))
              {| skippedLine := (-1)%Z; decorationLines := ∅; wordBuffer := None;
                 bufferedOffset := Some 0; paintCache := wordWidthCache st;
                 events := [] |} Hembed Hell Hdeco eq_refl) as (ps & Hrun & _ & Hev).
  exists ps. split; [exact Hrun|exact Hev].
Qed.

(** "Hello World" on two lines. *)
Lemma paint_plain_witness :
  embedFont Sample.normalContext = false
  /\ textOverflowEllipsis Sample.normalContext = false
  /\ textDecorationLine Sample.normalContext = false
  /\ exists ps,
       paint Sample.normalContext (Sample.geometry 80 80)
         (Sample.measured Sample.normalContext 5 80 Sample.helloWorld) = Ok ps
       /\ map (fun e => (e.1, eventText e.2)) (events ps)
          = positioned (Sample.measured Sample.normalContext 5 80 Sample.helloWorld)
              (seq 0 (length (words (Sample.measured Sample.normalContext 5 80
                                       Sample.helloWorld)))).
Proof.
  split; [reflexivity|]. split; [reflexivity|]. split; [reflexivity|].
  apply (paint_plain Sample.normalContext (Sample.geometry 80 80)
           (Sample.measured Sample.normalContext 5 80 Sample.helloWorld));
    reflexivity.
Defined.

(** "abc", "def" and "gh" on one line of width 80 in a content box of
    width 45: "abc" is truncated, the two other words are dropped. *)
Lemma truncated_line_is_dropped_witness :
  exists ps' kept,
    words ellipsisSampleStore !! 0%nat = Some {| content := "abc"; style := None |}
    /\ wordPositionInLayout ellipsisSampleStore !! 0%nat
       = Some (Pos {| pos_x := 0; pos_y := 0; pos_width := 30; pos_line := 0;
                      pos_lineIndex := 0 |})
    /\ Z.of_nat (pos_line {| pos_x := 0; pos_y := 0; pos_width := 30; pos_line := 0;
                             pos_lineIndex := 0 |})
       <> skippedLine (paintStart ∅)
    /\ (truncate ellipsisSampleContext (Sample.geometry 45 45) ellipsisSampleStore 10 10
          {| content := "abc"; style := None |}
          {| pos_x := 0; pos_y := 0; pos_width := 30; pos_line := 0; pos_lineIndex := 0 |}
          (paintCache (paintStart ∅))).1 = Some kept
    /\ paintWord ellipsisSampleContext (Sample.geometry 45 45) ellipsisSampleStore 10 10
         0 (paintStart ∅) = Ok ps'
    /\ (forall j l, j ∈ [1%nat; 2%nat] ->
          wordPositionInLayout ellipsisSampleStore !! j = Some (Pos l) ->
          pos_line l = pos_line {| pos_x := 0; pos_y := 0; pos_width := 30;
                                   pos_line := 0; pos_lineIndex := 0 |})
    /\ skippedLine ps'
       = Z.of_nat (pos_line {| pos_x := 0; pos_y := 0; pos_width := 30; pos_line := 0;
                               pos_lineIndex := 0 |})
    /\ paintLoop ellipsisSampleContext (Sample.geometry 45 45) ellipsisSampleStore 10 10
         [1%nat; 2%nat] ps' = Ok ps'.
Proof.
  assert (Hrest : forall j l, j ∈ [1%nat; 2%nat] ->
            wordPositionInLayout ellipsisSampleStore !! j = Some (Pos l) ->
            pos_line l = 0%nat).
  { intros j l Hj Hl.
    apply elem_of_cons in Hj as [->|Hj]; [vm_compute in Hl; by injection Hl as <-|].
    apply elem_of_cons in Hj as [->|Hj]; [vm_compute in Hl; by injection Hl as <-|].
    by apply elem_of_nil in Hj. }
  eexists _, _. split; [vm_compute; reflexivity|]. split; [vm_compute; reflexivity|].
  split; [vm_compute; discriminate|]. split; [vm_compute; reflexivity|].
  split; [vm_compute; reflexivity|]. split; [exact Hrest|].
  eapply (truncated_line_is_dropped ellipsisSampleContext (Sample.geometry 45 45)
            ellipsisSampleStore 10 10 0 (paintStart ∅) _
            {| content := "abc"; style := None |}
            {| pos_x := 0; pos_y := 0; pos_width := 30; pos_line := 0;
               pos_lineIndex := 0 |} _ [1%nat; 2%nat]).
  - vm_compute; reflexivity.
  - vm_compute; reflexivity.
  - vm_compute; discriminate.
  - vm_compute; reflexivity.
  - vm_compute; reflexivity.
  - exact Hrest.
Defined.

(** ** The graphemes of a truncated word *)

(** The scan is [ellipsisLoop] on the strings that the objects convert to. *)
Lemma ellipsisScan_as_loop e x ellipsisWidth inner chars :
  forall subset resolvedWidth cache,
    ellipsisScan e x ellipsisWidth inner chars subset resolvedWidth cache
    = ellipsisLoop e x ellipsisWidth inner (map InlineText_toString chars)
        subset resolvedWidth cache.
Proof.
  induction chars as [|char rest IH]; intros subset resolvedWidth cache; simpl; [done|].
  destruct (measureWithCache e [subset +:+ InlineText_toString char] cache) as [m cache'].
  by rewrite IH.
Qed.

Lemma ellipsisScan_copies e x ellipsisWidth inner chars :
  forall n resolvedWidth cache,
    exists k,
      (ellipsisScan e x ellipsisWidth inner chars
         (join (replicate n "[object Object]")) resolvedWidth cache).1.1
      = join (replicate (n + k) "[object Object]")
      /\ (k <= length chars)%nat
      /\ (n = 0%nat -> chars <> [] -> (1 <= k)%nat).
Proof.
  induction chars as [|char rest IH]; intros n resolvedWidth cache.
  - exists 0%nat. rewrite Nat.add_0_r. simpl. split; [done|]. split; [lia|done].
  - simpl.
    destruct (measureWithCache e
                [join (replicate n "[object Object]") +:+ InlineText_toString char] cache)
      as [m cache'].
    assert (Hnext : join (replicate n "[object Object]") +:+ InlineText_toString char
                    = join (replicate (S n) "[object Object]")).
    { replace (S n) with (n + 1)%nat by lia.
      rewrite replicate_add, join_app. simpl. unfold InlineText_toString.
      by rewrite append_nil_r. }
    destruct (negb (String.eqb (join (replicate n "[object Object]")) "")
              && Qgtb (x + m + ellipsisWidth) inner) eqn:Hstop.
    + exists 0%nat. rewrite Nat.add_0_r. simpl. split; [done|]. split; [lia|].
      intros -> _. simpl in Hstop. discriminate.
    + rewrite Hnext.
      destruct (IH (S n) (x + m) cache') as (k & Heq & Hle & _).
      exists (S k). rewrite Heq. replace (n + S k)%nat with (S n + k)%nat by lia.
      split; [done|]. simpl. split; lia.
Qed.

(** X18.  The truncation keeps no grapheme of the word.  The graphemes of
    line 531 are [InlineText] objects and the loop concatenates the
    objects, not their contents: the text that is kept is [k] copies of
    ["[object Object]"], with [k] at most the number of graphemes and at
    least one when the word has a grapheme. *)
Theorem truncation_keeps_no_grapheme ctx word x ellipsisWidth inner cache :
  exists k,
    (ellipsisScan (engine ctx) x ellipsisWidth inner (ellipsisChars ctx word) "" 0 cache).1.1
    = join (replicate k "[object Object]")
    /\ (k <= length (segmentGraphemes ctx (content word)))%nat
    /\ (segmentGraphemes ctx (content word) <> [] -> (1 <= k)%nat).
Proof.
  destruct (ellipsisScan_copies (engine ctx) x ellipsisWidth inner
              (ellipsisChars ctx word) 0 0 cache) as (k & Heq & Hle & Hone).
  exists k. split; [exact Heq|]. unfold ellipsisChars in *. rewrite length_map in Hle.
  split; [exact Hle|]. intros Hne. apply Hone; [done|].
  destruct (segmentGraphemes ctx (content word)); [done|discriminate].
Qed.

(** ** The whole invocation *)

Lemma minWidthScan_ok ctx ws cache :
  whiteSpace ctx <> WsPre ->
  exists r, minWidthScan ctx ws cache = Ok r.
Proof.
  intros Hpre. unfold minWidthScan.
  destruct (minWidthLoop_ok ctx ws
              {| minWidth := 0; remainingSegment := []; extraWidth := 0 |} cache Hpre)
    as [r ->].
  simpl. destruct (measureWithCache (engine ctx) (remainingSegment r.1) r.2). eauto.
Qed.

Lemma measureFunc_returns_keeping_words ctx width n st :
  isBreakWord ctx = false ->
  (length (words st) <= n)%nat ->
  exists size st',
    measureFunc ctx (S n) width st = Some (size, st') /\ words st' = words st.
Proof.
  intros Hbw Hn. unfold measureFunc, measureCall.
  destruct (measureLoop_returns ctx width n 0 (measureEnter st) initLocals Hbw)
    as [[st1 loc1] Hloop]; [simpl; lia|].
  rewrite Hloop.
  apply (measureLoop_invariant ctx width (fun _ st0 _ => words st0 = words st))
    in Hloop as (m & Hwords & _); [| |done].
  - unfold measureFlush. destruct (truthy (_currentWidth loc1)); eauto.
  - intros i word st0 loc0 _ <-. by apply measureBody_words.
Qed.

Lemma measureCalls_returns ctx n widths :
  forall st,
    isBreakWord ctx = false ->
    (length (words st) <= n)%nat ->
    exists sizes st',
      measureCalls ctx (S n) widths st = Some (sizes, st') /\ words st' = words st.
Proof.
  induction widths as [|width rest IH]; intros st Hbw Hn.
  - exists [], st. by split.
  - cbn [measureCalls].
    destruct (measureFunc_returns_keeping_words ctx width n st Hbw Hn)
      as (size & st1 & -> & Hwords).
    destruct (IH st1 Hbw) as (sizes & st' & -> & Hwords'); [by rewrite Hwords|].
    exists (size :: sizes), st'. split; [reflexivity|congruence].
Qed.

(** X19.  A layout invocation returns, whatever widths the callback is called
    with, when [white-space] is not [pre], break-word is off, and outlines
    are not embedded or a table of images is present; the word list that
    the painter sees is the one the invocation started with. *)
Theorem buildTextNodes_returns ctx ws parent widths g :
  whiteSpace ctx <> WsPre ->
  isBreakWord ctx = false ->
  embedFont ctx = false \/ is_Some (graphemeImages ctx) ->
  exists parent' st ps,
    buildTextNodes ctx (S (length ws)) ws parent widths g = Returns (parent', st, ps)
    /\ words st = ws.
Proof.
  intros Hpre Hbw Hsafe. unfold buildTextNodes.
  destruct (minWidthScan_ok ctx ws ∅ Hpre) as [[minW cache] ->].
  destruct (measureCalls_returns ctx (length ws) widths (initStore ws cache) Hbw)
    as (sizes & st & -> & Hwords); [done|].
  destruct (paint_ok ctx g st Hsafe) as [ps ->].
  eauto.
Qed.

(** "Hello World" measured with three widths. *)
Lemma buildTextNodes_returns_witness :
  whiteSpace Sample.normalContext <> WsPre
  /\ isBreakWord Sample.normalContext = false
  /\ (embedFont Sample.normalContext = false
      \/ is_Some (graphemeImages Sample.normalContext))
  /\ exists parent' st ps,
       buildTextNodes Sample.normalContext (S (length Sample.helloWorld))
         Sample.helloWorld Sample.freeParent [400; 80; 30] (Sample.geometry 80 80)
       = Returns (parent', st, ps)
       /\ words st = Sample.helloWorld.
Proof.
  split; [discriminate|]. split; [reflexivity|]. split; [by left|].
  apply (buildTextNodes_returns Sample.normalContext Sample.helloWorld
           Sample.freeParent [400; 80; 30] (Sample.geometry 80 80));
    [discriminate|reflexivity|by left].
Defined.

(** ** Words and the width of their line *)

Lemma inLine_same widths count open open' slot :
  open <= open' -> inLine widths count open slot -> inLine widths count open' slot.
Proof.
  intros Hle. destruct slot as [| |p]; simpl; try done.
  intros (Hline & Hrec & Hopen). repeat split; try done.
  intros Heq. eapply Qle_trans; [by apply Hopen|done].
Qed.

Lemma inLine_closed widths open open' slot :
  inLine widths (length widths) open slot ->
  inLine (widths ++ [open]) (S (length widths)) open' slot.
Proof.
  destruct slot as [| |p]; simpl; try done.
  intros (Hline & Hrec & Hopen). split; [lia|]. split; [|lia].
  intros lineWidth Hlook.
  destruct (decide (pos_line p = length widths)) as [Heq|Hne].
  - rewrite Heq, lookup_app_r, Nat.sub_diag in Hlook by lia.
    injection Hlook as <-. by apply Hopen.
  - rewrite lookup_app_l in Hlook by lia. by apply Hrec.
Qed.

Lemma measureBody_geometry ctx width i word st loc :
  widthsNonneg ctx ->
  isBreakWord ctx = false ->
  cache_ok (engine ctx) (wordWidthCache st) ->
  lines loc = length (lineWidths st) ->
  0 <= _currentWidth loc ->
  0 <= remainingSpaceWidth loc ->
  exists slot,
    wordPositionInLayout (measureBody ctx width i word st loc).1
      = array_set Hole i slot (wordPositionInLayout st)
    /\ lines (measureBody ctx width i word st loc).2
       = length (lineWidths (measureBody ctx width i word st loc).1)
    /\ 0 <= _currentWidth (measureBody ctx width i word st loc).2
    /\ 0 <= remainingSpaceWidth (measureBody ctx width i word st loc).2
    /\ inLine (lineWidths (measureBody ctx width i word st loc).1)
              (lines (measureBody ctx width i word st loc).2)
              (_currentWidth (measureBody ctx width i word st loc).2) slot
    /\ ((lineWidths (measureBody ctx width i word st loc).1 = lineWidths st
         /\ _currentWidth loc <= _currentWidth (measureBody ctx width i word st loc).2)
        \/ lineWidths (measureBody ctx width i word st loc).1
           = lineWidths st ++ [_currentWidth loc]).
Proof.
  intros [Hfont Hmeasure] Hbw Hok Hlines Hcw Hsw. unfold measureBody.
  set (space := if String.eqb (remainingSpace loc) "" then " " else remainingSpace loc).
  destruct (measureWithCache_one (engine ctx) space _ Hok) as (ca & -> & _).
  destruct (measureWithCache_one (engine ctx) (content word) _ Hok) as (cb & -> & _).
  pose proof (Hmeasure space) as Hspace. pose proof (Hmeasure (content word)) as Hword.
  rewrite Hbw. clearbody space. simpl.
  repeat (case_match; simpl); simplify_eq; eexists; (split; [reflexivity|]); simpl;
    rewrite ?length_app; simpl;
    (split; [lia|]); (split; [lra|]); (split; [lra|]); split.
  all: try (first [left; split; [reflexivity|lra] | right; reflexivity]).
  all: try done.
  all: split; [lia|split].
  all: try (intros _; lra).
  all: intros lineWidth Hlook; rewrite lookup_ge_None_2 in Hlook
         by (rewrite ?length_app; simpl; lia); discriminate.
Qed.

(** X20.  No word sticks out of its line.  When the widths of the engine and the
    font size are not negative and break-word is off, every word position
    that a call records ends at or before the recorded width of its line. *)
Theorem words_within_line ctx fuel width st size st' :
  widthsNonneg ctx ->
  isBreakWord ctx = false ->
  cache_ok (engine ctx) (wordWidthCache st) ->
  measureFunc ctx fuel width st = Some (size, st') ->
  forall j p lineWidth,
    (j < length (words st))%nat ->
    wordPositionInLayout st' !! j = Some (Pos p) ->
    lineWidths st' !! pos_line p = Some lineWidth ->
    pos_x p + pos_width p <= lineWidth.
Proof.
  intros Hnonneg Hbw Hok. unfold measureFunc, measureCall. intros Hcall.
  destruct (measureLoop ctx width fuel 0 (measureEnter st) initLocals)
    as [[st1 loc1]|] eqn:Hloop; [|discriminate].
  apply (measureLoop_invariant ctx width
           (fun i st0 loc0 =>
              words st0 = words st
              /\ (i <= length (words st))%nat
              /\ cache_ok (engine ctx) (wordWidthCache st0)
              /\ lines loc0 = length (lineWidths st0)
              /\ 0 <= _currentWidth loc0
              /\ 0 <= remainingSpaceWidth loc0
              /\ Forall (inLine (lineWidths st0) (lines loc0) (_currentWidth loc0))
                        (take i (wordPositionInLayout st0))))
    in Hloop as (n & (Hwords & Hle & _ & Hlines & _ & _ & Hall) & Hn).
  - rewrite Hwords in Hn. assert (n = length (words st)) as -> by lia.
    assert (Hfinal : Forall (fun slot =>
                       match slot with
                       | Pos p => forall lineWidth,
                           lineWidths st' !! pos_line p = Some lineWidth ->
                           pos_x p + pos_width p <= lineWidth
                       | _ => True
                       end) (take (length (words st)) (wordPositionInLayout st'))).
    { unfold measureFlush in Hcall.
      destruct (truthy (_currentWidth loc1)); inversion Hcall; subst; simpl.
      - eapply Forall_impl; [exact Hall|]. intros slot Hslot.
        rewrite Hlines in Hslot.
        apply (inLine_closed _ _ 0) in Hslot. destruct slot; try done. apply Hslot.
      - eapply Forall_impl; [exact Hall|]. intros [| |p]; try done. intros H. apply H. }
    intros j p lineWidth Hj Hpos Hlook.
    rewrite Forall_lookup in Hfinal.
    apply (Hfinal j (Pos p)); [|done]. by rewrite lookup_take_lt.
  - intros i word st0 loc0 Hi (Hwords & Hle & Hok0 & Hlines & Hcw & Hsw & Hall).
    destruct (measureBody_geometry ctx width i word st0 loc0 Hnonneg Hbw Hok0 Hlines Hcw Hsw)
      as (slot & Hwpl & Hlines' & Hcw' & Hsw' & Hslot & Hstep).
    destruct (measureBody_same ctx width i word st0 st0 loc0) as [(_ & Hok' & _) _];
      [done|].
    rewrite Hwords in Hi. apply lookup_lt_Some in Hi.
    split; [by rewrite measureBody_words|]. split; [lia|]. split; [exact Hok'|].
    split; [exact Hlines'|]. split; [exact Hcw'|]. split; [exact Hsw'|].
    rewrite Hwpl, take_array_set. apply Forall_app. split; [|by apply Forall_singleton].
    apply Forall_app. split; [|by apply Forall_replicate].
    eapply Forall_impl; [exact Hall|]. intros s Hs.
    destruct Hstep as [[Hlw Hgrow]|Hlw].
    + rewrite Hlines', Hlw, <- Hlines. by apply (inLine_same _ _ (_currentWidth loc0)).
    + rewrite Hlines', Hlw. rewrite Hlines in Hs.
      replace (length (lineWidths st0 ++ [_currentWidth loc0]))
        with (S (length (lineWidths st0))) by (rewrite length_app; simpl; lia).
      by apply inLine_closed.
  - simpl. repeat split; try lia; try apply Qle_refl; try done.
Qed.

(** "Hello World" on two lines: "World" ends at the width of the second
    line. *)
Lemma words_within_line_witness :
  exists size st',
    widthsNonneg Sample.normalContext
    /\ isBreakWord Sample.normalContext = false
    /\ cache_ok (engine Sample.normalContext) (wordWidthCache (initStore Sample.helloWorld ∅))
    /\ measureFunc Sample.normalContext 5 80 (initStore Sample.helloWorld ∅)
       = Some (size, st')
    /\ forall j p lineWidth,
         (j < length (words (initStore Sample.helloWorld ∅)))%nat ->
         wordPositionInLayout st' !! j = Some (Pos p) ->
         lineWidths st' !! pos_line p = Some lineWidth ->
         pos_x p + pos_width p <= lineWidth.
Proof.
  assert (Hnonneg : widthsNonneg Sample.normalContext).
  { split; [discriminate|]. intros s. simpl.
    destruct (String.eqb s ellipsis); [discriminate|].
    unfold Qle. simpl. lia. }
  eexists _, _. split; [exact Hnonneg|]. split; [reflexivity|].
  split; [apply cache_ok_empty|]. split; [vm_compute; reflexivity|].
  eapply (words_within_line Sample.normalContext 5 80 (initStore Sample.helloWorld ∅));
    [exact Hnonneg|reflexivity|apply cache_ok_empty|vm_compute; reflexivity].
Defined.

(** ** Decorations *)

Lemma keepsMarks_refl decos : keepsMarks decos decos.
Proof. intros line deco ? ?. eauto. Qed.

Lemma keepsMarks_trans a b c : keepsMarks a b -> keepsMarks b c -> keepsMarks a c.
Proof.
  intros Hab Hbc line deco Hlook Hmark.
  destruct (Hab line deco Hlook Hmark) as (deco' & Hlook' & Hmark'). eauto.
Qed.

Lemma keepsMarks_fresh decos line deco :
  keepsMarks decos
    match decos !! line with Some _ => decos | None => <[line := deco]> decos end.
Proof.
  destruct (decos !! line) eqn:Hline; [apply keepsMarks_refl|].
  intros l d Hlook Hmark. exists d. split; [|done].
  rewrite lookup_insert_ne; [done|]. intros ->. congruence.
Qed.

Lemma keepsMarks_alter decos line f :
  (forall deco, deco_emitted (f deco) = deco_emitted deco) ->
  keepsMarks decos (alter f line decos).
Proof.
  intros Hf l d Hlook Hmark. destruct (decide (l = line)) as [->|Hne].
  - exists (f d). rewrite lookup_alter_eq, Hlook. split; [done|]. by rewrite Hf.
  - exists d. by rewrite lookup_alter_ne.
Qed.

Lemma marked_keeps lines decos decos' :
  marked lines decos -> keepsMarks decos decos' -> marked lines decos'.
Proof.
  intros Hmarked Hkeeps line Hin.
  destruct (Hmarked line Hin) as (deco & Hlook & Hmark). eauto.
Qed.

Lemma marked_snoc lines decos line deco :
  marked lines decos -> deco_emitted deco = true ->
  marked (lines ++ [line]) (<[line := deco]> decos).
Proof.
  intros Hmarked Hdeco l Hin. destruct (decide (l = line)) as [->|Hne].
  - exists deco. by rewrite lookup_insert_eq.
  - rewrite lookup_insert_ne by done. apply Hmarked.
    apply elem_of_app in Hin as [Hin|Hin]; [done|].
    apply list_elem_of_singleton in Hin. done.
Qed.

Lemma unmarked_is_new lines decos line deco :
  marked lines decos -> decos !! line = Some deco -> deco_emitted deco = false ->
  line ∉ lines.
Proof.
  intros Hmarked Hlook Hdeco Hin.
  destruct (Hmarked line Hin) as (deco' & Hlook' & Hmark). congruence.
Qed.

Lemma paintWord_decorations ctx g st ellipsisWidth spaceWidth i ps ps' :
  paintWord ctx g st ellipsisWidth spaceWidth i ps = Ok ps' ->
  NoDup (decoratedLines st (events ps)) ->
  marked (decoratedLines st (events ps)) (decorationLines ps) ->
  NoDup (decoratedLines st (events ps'))
  /\ marked (decoratedLines st (events ps')) (decorationLines ps').
Proof.
  unfold paintWord.
  destruct (words st !! i) as [original|]; [|by intros [= <-]].
  destruct (wordPositionInLayout st !! i) as [[| |layout]|] eqn:Hpos;
    try by intros [= <-].
  destruct (Z.of_nat (pos_line layout) =? skippedLine ps)%Z; [by intros [= <-]|].
  destruct (alignedOffset ctx g st layout) as [leftOffset extended].
  destruct (truncate ctx g st ellipsisWidth spaceWidth original layout (paintCache ps))
    as [truncated cache'].
  cbv zeta. intros Hstep Hnodup Hmarked.
  set (decos0 := match decorationLines ps !! pos_line layout with
                 | Some _ => decorationLines ps
                 | None => _
                 end) in Hstep.
  assert (Hdecos0 : marked (decoratedLines st (events ps)) decos0)
    by (eapply marked_keeps; [exact Hmarked|apply keepsMarks_fresh]).
  clearbody decos0.
  assert (exists decos1, marked (decoratedLines st (events ps)) decos1
            /\ decos1 = match truncated with
                        | Some (_, resolvedWidth) =>
                            alter (fun d => {| deco_left := deco_left d;
                                               deco_width := Some resolvedWidth;
                                               deco_emitted := deco_emitted d |})
                              (pos_line layout) decos0
                        | None => decos0
                        end) as (decos1 & Hdecos1 & Heq).
  { eexists. split; [|reflexivity]. destruct truncated as [[subset resolvedWidth]|]; [|done].
    eapply marked_keeps; [exact Hdecos0|]. by apply keepsMarks_alter. }
  rewrite <- Heq in Hstep. clear Heq Hdecos0 decos0.
  assert (Hline : forall a b c d, decoratedLine st (i, EvDecoration a b c d)
                                  = Some (pos_line layout))
    by (intros; unfold decoratedLine; simpl; by rewrite Hpos).
  destruct (truthy_str (imageOf ctx (content original)));
    [|destruct (embedFont ctx);
      [match type of Hstep with
       | context [mergeCondition ?c ?s ?j ?o ?w ?t] =>
           destruct (mergeCondition c s j o w t) as [[|]|]
       end|]];
    simpl in Hstep; try discriminate.
  all: injection Hstep as <-; simpl; try (split; done).
  all: destruct (decos1 !! pos_line layout) as [deco|] eqn:Hdeco;
    [match goal with
     | |- context [if ?b && negb (deco_emitted deco) then _ else _] =>
         destruct b; simpl; [destruct (deco_emitted deco) eqn:Hemitted; simpl|]
     end|].
  all: unfold decoratedLines in *; rewrite ?omap_app; simpl; rewrite ?Hline; simpl;
    rewrite ?app_nil_r; try (split; done).
  all: split;
    [apply NoDup_app; split; [done|]; split; [|apply NoDup_singleton];
     intros line Hin Hone; apply list_elem_of_singleton in Hone; subst line;
     by apply (unmarked_is_new _ _ _ _ Hdecos1 Hdeco)
    |by apply marked_snoc].
Qed.

Lemma paintLoop_decorations ctx g st ellipsisWidth spaceWidth indices :
  forall ps ps',
    paintLoop ctx g st ellipsisWidth spaceWidth indices ps = Ok ps' ->
    NoDup (decoratedLines st (events ps)) ->
    marked (decoratedLines st (events ps)) (decorationLines ps) ->
    NoDup (decoratedLines st (events ps')).
Proof.
  induction indices as [|i rest IH]; intros ps ps'; simpl.
  - by intros [= <-].
  - destruct (paintWord ctx g st ellipsisWidth spaceWidth i ps) as [ps1|err] eqn:Hword;
      simpl; [|discriminate].
    intros Hrest Hnodup Hmarked.
    destruct (paintWord_decorations _ _ _ _ _ _ _ _ Hword Hnodup Hmarked). eauto.
Qed.

(** X21.  A line is decorated at most once.  Whatever the store holds, the
    decoration calls of a run of the painter are made for pairwise distinct
    lines: the mark [deco[2]] of lines 643 and 654 does its work across all
    the branches of the loop. *)
Theorem line_decorated_once ctx g st ps :
  paint ctx g st = Ok ps -> NoDup (decoratedLines st (events ps)).
Proof.
  unfold paint.
  destruct (if textOverflowEllipsis ctx
            then measureWithCache (engine ctx) [ellipsis] (wordWidthCache st)
            else (0, wordWidthCache st)) as [ellipsisWidth cache1].
  destruct (if textOverflowEllipsis ctx
            then measureWithCache (engine ctx) [" "] cache1
            else (0, cache1)) as [spaceWidth cache2].
  intros Hloop. eapply paintLoop_decorations; [exact Hloop| |]; simpl.
  - constructor.
  - intros line Hin. by apply elem_of_nil in Hin.
Qed.

(** "Hello World" underlined on two lines: one decoration for each. *)
Lemma line_decorated_once_witness :
  exists ps,
    paint underlinedContext (Sample.geometry 80 80)
      (Sample.measured underlinedContext 5 80 Sample.helloWorld) = Ok ps
    /\ decoratedLines (Sample.measured underlinedContext 5 80 Sample.helloWorld)
         (events ps) = [0; 1]%nat
    /\ NoDup (decoratedLines (Sample.measured underlinedContext 5 80 Sample.helloWorld)
                (events ps)).
Proof.
  eexists. split; [vm_compute; reflexivity|]. split; [vm_compute; reflexivity|].
  eapply (line_decorated_once underlinedContext (Sample.geometry 80 80)
            (Sample.measured underlinedContext 5 80 Sample.helloWorld)).
  vm_compute. reflexivity.
Defined.
